(** * ippy: IPv4 pattern expressions

    A shallow embedding of the Go packages [token], [lexer], [parser],
    [bitsvector], [ip] and [ipexpr], followed by the properties of the
    tokenizer, the interval parser, the octet set and the pattern
    compiler / matcher / generator.

    Conventions.
    - A Go [string] is a sequence of bytes: Rocq's [string] of 8-bit [ascii].
    - A Go [byte] or [int] is a [Z]; conversions to [byte] are written out
      with [byte_of].  Positions in a string are [nat].
    - A Go loop whose trip count is not syntactically bounded carries a
      fuel argument and returns [None] when the fuel is used up.  For the
      tokenizer and the parser the fuel handed out is always enough
      ([LexerFacts.NextToken_total], [ParserFacts.run_total]); the inner
      loop of [Generate] does not terminate on an empty octet set, and
      [None] stands for that.

    Layout: the packages, in dependency order; the invariants and the
    reference definitions that the statements use; the lemmas on each
    package; the properties of the specification. *)

From Stdlib Require Import ZArith Lia Bool Ascii String.
From stdpp Require Import base option list.

Local Open Scope Z_scope.

(** Conversion of an integer to a Go [byte]. *)
Definition byte_of (n : Z) : Z := n mod 256.

(** * Package token *)
Module Token.

(** [type Type = string], with the six constants of the package. *)
Definition Type_ := string.

Definition EOF : Type_ := "EOF"%string.
Definition ILLEGAL : Type_ := "ILLEGAL"%string.
Definition NUMBER : Type_ := "NUMBER"%string.
Definition DASH : Type_ := "DASH"%string.
Definition ASTERISK : Type_ := "ASTERISK"%string.
Definition COMMA : Type_ := "COMMA"%string.

(** [Type] is reserved in Rocq: the field is [Typ]. *)
Record Token := New { Typ : Type_; Literal : string }.

End Token.

(** * Package lexer *)
Module Lexer.

Definition nul : ascii := Ascii.zero.

Record Lexer := mkLexer {
  input : string;
  position : nat;
  readPosition : nat;
  ch : ascii
}.

Definition readChar (l : Lexer) : Lexer :=
  {| input := input l;
     position := readPosition l;
     readPosition := (readPosition l + 1)%nat;
     ch := if (String.length (input l) <=? readPosition l)%nat
           then nul
           else default nul (String.get (readPosition l) (input l)) |}.

Definition New (s : string) : Lexer :=
  readChar {| input := s; position := 0; readPosition := 0; ch := nul |}.

Definition isDigit (b : ascii) : bool :=
  ((nat_of_ascii "0" <=? nat_of_ascii b)
   && (nat_of_ascii b <=? nat_of_ascii "9"))%nat.

(** Both loops of the package have the shape
    [for cond(l.ch) { l.readChar() }]. *)
Fixpoint read_while (cond : ascii -> bool) (fuel : nat) (l : Lexer)
  : option Lexer :=
  if cond (ch l) then
    match fuel with
    | O => None
    | S fuel' => read_while cond fuel' (readChar l)
    end
  else Some l.

(** [for l.ch == ' ' { l.readChar() }] *)
Definition skipWhiteSpaces (l : Lexer) : option Lexer :=
  read_while (fun c => Ascii.eqb c " ") (S (String.length (input l))) l.

(** [pos := l.position; for isDigit(l.ch) { l.readChar() };
    return l.input[pos:l.position]] *)
Definition readNumber (l : Lexer) : option (string * Lexer) :=
  let pos := position l in
  l' ← read_while isDigit (S (String.length (input l))) l;
  Some (String.substring pos (position l' - pos) (input l'), l').

(** Go's [string(b)] for a byte [b]: the UTF-8 encoding of the code
    point [b], one byte below 0x80 and two bytes from 0x80 on. *)
Definition string_of_byte (b : ascii) : string :=
  let n := nat_of_ascii b in
  if (n <? 128)%nat then String b EmptyString
  else String (ascii_of_nat (192 + n / 64))
         (String (ascii_of_nat (128 + n mod 64)) EmptyString).

Definition NextToken (l0 : Lexer) : option (Token.Token * Lexer) :=
  l ← skipWhiteSpaces l0;
  let c := ch l in
  if Ascii.eqb c "-" then
    Some (Token.New Token.DASH (string_of_byte c), readChar l)
  else if Ascii.eqb c "*" then
    Some (Token.New Token.ASTERISK (string_of_byte c), readChar l)
  else if Ascii.eqb c "," then
    Some (Token.New Token.COMMA (string_of_byte c), readChar l)
  else if Ascii.eqb c nul then
    Some (Token.New Token.EOF EmptyString, readChar l)
  else if isDigit c then
    '(lit, l') ← readNumber l;
    Some (Token.New Token.NUMBER lit, l')
  else
    Some (Token.New Token.ILLEGAL (string_of_byte c), readChar l).

End Lexer.

(** * Package strconv (Go standard library), as far as the program uses it *)
Module Strconv.

Inductive Err := ErrSyntax | ErrRange.

Definition digit_of (c : ascii) : Z := Z.of_nat (nat_of_ascii c) - 48.

(** The digit loop of [ParseUint(s, 10, bitSize)]: a byte that is not a
    decimal digit is a syntax error, a value above [maxVal] is a range
    error, whichever comes first from the left. *)
Fixpoint parse_digits (maxVal : Z) (n : Z) (s : string) : Err + Z :=
  match s with
  | EmptyString => inr n
  | String c s' =>
      if Lexer.isDigit c then
        let n1 := n * 10 + digit_of c in
        if maxVal <? n1 then inl ErrRange else parse_digits maxVal n1 s'
      else inl ErrSyntax
  end.

(** [strconv.ParseUint(s, 10, 8)]: no sign, no empty string. *)
Definition ParseUint8 (s : string) : Err + Z :=
  match s with
  | EmptyString => inl ErrSyntax
  | _ => parse_digits 255 0 s
  end.

Definition maxInt : Z := 2 ^ 63 - 1.

Definition maxUint64 : Z := 2 ^ 64 - 1.

(** [strconv.Atoi(s)] on a 64-bit platform: an optional sign, then at
    least one byte; the bytes go through the digit loop at 64 bits
    unsigned (a byte that is not a digit is a syntax error, a value above
    [maxUint64] a range error, whichever comes first), and a value that
    does not fit [int] with its sign is a range error. *)
Definition Atoi (s : string) : Err + Z :=
  match s with
  | EmptyString => inl ErrSyntax
  | String c s' =>
      let neg := Ascii.eqb c "-" in
      let digits := if Ascii.eqb c "+" || neg then s' else s in
      match digits with
      | EmptyString => inl ErrSyntax
      | _ =>
          match parse_digits maxUint64 0 digits with
          | inl e => inl e
          | inr un =>
              if neg then
                if maxInt + 1 <? un then inl ErrRange else inr (- un)
              else
                if maxInt <? un then inl ErrRange else inr un
          end
      end
  end.

End Strconv.

(** * Package strings (Go standard library): [Split] on a one-byte separator *)
Module Strings.

Fixpoint Split (s : string) (sep : ascii) : list string :=
  match s with
  | EmptyString => [EmptyString]
  | String c s' =>
      if Ascii.eqb c sep then EmptyString :: Split s' sep
      else match Split s' sep with
           | x :: r => String c x :: r
           | [] => [String c EmptyString]
           end
  end.

End Strings.

(** * Package parser *)
Module Parser.

(** [type Interval [2]byte] *)
Definition Interval : Type := Z * Z.

Record Parser := mkParser {
  l : Lexer.Lexer;
  errors : list string;
  currToken : Token.Token;
  peekToken : Token.Token
}.

(** The methods mutate the parser in place and may run the lexer out of
    fuel: a state and failure monad over [Parser]. *)
Definition M (A : Type) : Type := Parser -> option (A * Parser).

Definition ret {A} (a : A) : M A := fun p => Some (a, p).

Definition bind {A B} (m : M A) (k : A -> M B) : M B :=
  fun p => match m p with
           | Some (a, p') => k a p'
           | None => None
           end.

Declare Scope parser_scope.
Delimit Scope parser_scope with parser.
Notation "'let*' x ':=' m 'in' k" := (bind m (fun x => k))
  (at level 10, x pattern, k at level 200) : parser_scope.
Local Open Scope parser_scope.

Definition get : M Parser := fun p => Some (p, p).

Definition Errors (p : Parser) : list string := errors p.

Definition push_error (msg : string) : M unit :=
  fun p => Some (tt, {| l := l p; errors := errors p ++ [msg];
                        currToken := currToken p;
                        peekToken := peekToken p |}).

Definition nextToken : M unit :=
  fun p => match Lexer.NextToken (l p) with
           | Some (tkn, l') =>
               Some (tt, {| l := l'; errors := errors p;
                            currToken := peekToken p;
                            peekToken := tkn |})
           | None => None
           end.

Definition currTokenIs (t : Token.Type_) : M bool :=
  let* p := get in ret (String.eqb (Token.Typ (currToken p)) t).

Definition peekTokenIs (t : Token.Type_) : M bool :=
  let* p := get in ret (String.eqb (Token.Typ (peekToken p)) t).

Definition currError (t : Token.Type_) : M unit :=
  let* p := get in
  push_error (String.append "expected current token type is "
                (String.append t
                   (String.append ", found " (Token.Typ (currToken p))))).

Definition numberParsingError : M unit :=
  let* p := get in
  push_error (String.append "numeric value "
                (String.append (Token.Literal (currToken p))
                   " is not valid")).

Definition expectCurrIs (t : Token.Type_) : M bool :=
  let* b := currTokenIs t in
  if negb b then let* _ := currError t in ret false
  else let* _ := nextToken in ret true.

Definition parseNumber : M (Z * bool) :=
  let* b := currTokenIs Token.NUMBER in
  if negb b then let* _ := currError Token.NUMBER in ret (0, false)
  else
    let* p := get in
    match Strconv.Atoi (Token.Literal (currToken p)) with
    | inl _ => let* _ := numberParsingError in ret (0, false)
    | inr num =>
        if (num <? 0) || (255 <? num) then
          let* _ := numberParsingError in ret (0, false)
        else let* _ := nextToken in ret (byte_of num, true)
    end.

Definition parseTerm : M (Interval * bool) :=
  let* b := currTokenIs Token.ASTERISK in
  if b then let* _ := nextToken in ret ((0, 255), true)
  else
    let* (start, ok) := parseNumber in
    if negb ok then let* _ := numberParsingError in ret ((0, 0), false)
    else
      let* b := currTokenIs Token.DASH in
      if negb b then ret ((start, start), true)
      else
        let* _ := nextToken in
        let* (end_, ok) := parseNumber in
        if negb ok then let* _ := numberParsingError in ret ((0, 0), false)
        else ret ((start, end_), true).

(** [for !p.currTokenIs(token.EOF) { ... }] *)
Fixpoint parseExpr_loop (fuel : nat) (intervals : list Interval)
  : M (list Interval * bool) :=
  let* b := currTokenIs Token.EOF in
  if negb b then
    match fuel with
    | O => fun _ => None
    | S fuel' =>
        let* (interval, ok) := parseTerm in
        if negb ok then ret ([], false)
        else
          let intervals := intervals ++ [interval] in
          let* b := peekTokenIs Token.EOF in
          let* _ := (if negb b then expectCurrIs Token.COMMA else ret true) in
          parseExpr_loop fuel' intervals
    end
  else ret (intervals, true).

(** Every round of the loop consumes a token, and there are at most as
    many tokens before the end as bytes in the input. *)
Definition parseExpr : M (list Interval * bool) :=
  let* p := get in
  parseExpr_loop (String.length (Lexer.input (l p)) + 2) [].

Definition Parse : M (list Interval * bool) :=
  let* (intervals, ok) := parseExpr in
  if negb ok then ret ([], false)
  else if (List.length intervals =? 0)%nat then
    let* _ := push_error "a valid octet should have at least 1 range" in
    ret ([], false)
  else ret (intervals, true).

Definition New (s : string) : option Parser :=
  let p := {| l := Lexer.New s; errors := [];
              currToken := Token.New EmptyString EmptyString;
              peekToken := Token.New EmptyString EmptyString |} in
  '(_, p) ← (let* _ := nextToken in nextToken) p;
  Some p.

(** [parser.New(s).Parse()], with the diagnostics left in the parser. *)
Definition run (s : string) : option (list Interval * bool * list string) :=
  p ← New s;
  '(r, p') ← Parse p;
  Some (r, Errors p').

End Parser.

(** * Package bitsvector *)
Module Bitsvector.

(** [type OctetBits [32]byte] *)
Abbreviation OctetBits := (list Z) (only parsing).

Definition AllSet : OctetBits := replicate 32 255.

(** The zero value [OctetBits{}]. *)
Definition zero : OctetBits := replicate 32 0.

(** [o[i]] for an index that the type [byte] keeps below 32. *)
Definition at_ (o : OctetBits) (i : Z) : Z := default 0 (o !! Z.to_nat i).

(** [1 << (n % 8)] at type [byte]. *)
Definition mask (n : Z) : Z := byte_of (Z.shiftl 1 (n mod 8)).

(** [o[n/8] |= 1 << (n % 8)] *)
Definition set (o : OctetBits) (n : Z) : OctetBits :=
  <[Z.to_nat (n / 8) := Z.lor (at_ o (n / 8)) (mask n)]> o.

(** [o[int(n)/8]&(1<<(n%8)) != 0] *)
Definition Test (o : OctetBits) (n : Z) : bool :=
  negb (Z.land (at_ o (n / 8)) (mask n) =? 0).

(** [for i := start; i <= end; i++ { ob.set(byte(i)) }], at most 256
    rounds since both bounds are bytes. *)
Fixpoint set_range (fuel : nat) (i end_ : Z) (ob : OctetBits) : OctetBits :=
  match fuel with
  | O => ob
  | S fuel' =>
      if i <=? end_ then set_range fuel' (i + 1) end_ (set ob (byte_of i))
      else ob
  end.

(** [for _, it := range its { ... }] *)
Fixpoint set_intervals (its : list Parser.Interval) (ob : OctetBits)
  : OctetBits :=
  match its with
  | [] => ob
  | (start, end_) :: its' => set_intervals its' (set_range 256 start end_ ob)
  end.

Definition New (its : list Parser.Interval) : OctetBits :=
  match its with
  | [(lo, hi)] =>
      if (lo =? hi) && (lo =? 255) then AllSet
      else set_intervals its zero
  | _ => set_intervals its zero
  end.

End Bitsvector.

(** Go's [error] values, as far as the program builds them. *)
Inductive error :=
| Errorf (msg : string)
| NumError (Func Num : string) (Err : Strconv.Err).

(** * Package ip *)
Module Ip.

(** [type IPv4 = net.IP], a slice of bytes: the four bytes of [To4()] on
    success. *)
Abbreviation IPv4 := (list Z) (only parsing).

(** [net.IPv4zero], which [Parse] returns as it is beside an error: the
    16-byte IPv4-mapped form of 0.0.0.0. *)
Definition IPv4zero : IPv4 :=
  [0; 0; 0; 0; 0; 0; 0; 0; 0; 0; 255; 255; 0; 0; 0; 0].

(** [for i, os := range parts { ... octets[i] = uint8(octet) }] *)
Fixpoint parse_octets (parts : list string) (i : nat) (octets : list Z)
  : error + list Z :=
  match parts with
  | [] => inr octets
  | os :: parts' =>
      match Strconv.ParseUint8 os with
      | inl e => inl (NumError "ParseUint" os e)
      | inr octet => parse_octets parts' (S i) (<[i := byte_of octet]> octets)
      end
  end.

Definition Parse (ip : string) : IPv4 * option error :=
  let parts := Strings.Split ip "." in
  if negb (List.length parts =? 4)%nat then
    (IPv4zero, Some (Errorf (String.append "invalid ip: " ip)))
  else
    match parse_octets parts 0 [0; 0; 0; 0] with
    | inl e => (IPv4zero, Some e)
    | inr octets => (octets, None)
    end.

End Ip.

(** * Package ipexpr *)
Module Ipexpr.

Import Bitsvector.

Record IPExpr := mkIPExpr { octets : list OctetBits }.

(** The zero value [IPExpr{}]. *)
Definition zeroIPExpr : IPExpr := {| octets := replicate 4 zero |}.

(** [ie.octets[i]]: the array has four entries and every index the
    program uses is below 4 (an address from [ip.Parse] has four bytes), so
    the index is never out of range. *)
Definition octet_at (ie : IPExpr) (i : nat) : OctetBits :=
  default zero (octets ie !! i).

(** [for i, octet := range ip { if !ie.octets[i].Test(octet) ... }] *)
Fixpoint matches_from (ie : IPExpr) (i : nat) (ip : Ip.IPv4) : bool :=
  match ip with
  | [] => true
  | octet :: ip' =>
      if negb (Test (octet_at ie i) octet) then false
      else matches_from ie (S i) ip'
  end.

Definition Matches (ie : IPExpr) (i : string) : bool * option error :=
  match Ip.Parse i with
  | (_, Some err) => (false, Some err)
  | (ip, None) => (matches_from ie 0 ip, None)
  end.

(** The inner [for { ... }] of [Generate]: step the counter until the
    octet set has it, noting a wrap to 0. *)
Fixpoint next_member (fuel : nat) (ob : OctetBits) (c : Z) (carry : bool)
  : option (Z * bool) :=
  match fuel with
  | O => None
  | S fuel' =>
      let c := (c + 1) mod 256 in
      let carry := if c =? 0 then true else carry in
      if Test ob (byte_of c) then Some (c, carry)
      else next_member fuel' ob c carry
  end.

(** [counter[i]] for [i] below 4. *)
Definition counter_at (counter : list Z) (i : nat) : Z :=
  default 0 (counter !! i).

(** [for i := range 4 { ... if !carry { break } }], from [i] on. *)
Fixpoint advance (n i : nat) (ie : IPExpr) (counter : list Z)
  : option (list Z) :=
  match n with
  | O => Some counter
  | S n' =>
      let k := (3 - i)%nat in
      '(c, carry) ← next_member 256 (octet_at ie k) (counter_at counter k) false;
      let counter := <[k := c]> counter in
      if negb carry then Some counter
      else advance n' (S i) ie counter
  end.

Definition counters_nonzero (counter : list Z) : bool :=
  negb (counter_at counter 0 =? 0) && negb (counter_at counter 1 =? 0)
  && negb (counter_at counter 2 =? 0) && negb (counter_at counter 3 =? 0).

(** The [for counter[0] != 0 && ... { ... }] loop of the iterator, run
    against a consumer that never stops it: the pairs handed to
    [yield], in order. *)
Fixpoint generate_loop (fuel : nat) (ie : IPExpr) (counter : list Z) (i : Z)
  : option (list (Z * Ip.IPv4)) :=
  if counters_nonzero counter then
    match fuel with
    | O => None
    | S fuel' =>
        let ip := map byte_of counter in
        counter ← advance 4 0 ie counter;
        rest ← generate_loop fuel' ie counter (i + 1);
        Some ((i, ip) :: rest)
    end
  else Some [].

(** [i := 0; counter := [4]int{}] and the loop.  The iterator closes over
    [i] and [counter]; they are created afresh by each call of
    [Generate]. *)
Definition Generate (fuel : nat) (ie : IPExpr) : option (list (Z * Ip.IPv4)) :=
  generate_loop fuel ie [0; 0; 0; 0] 0.

Definition parseOctet (o : string) : option (OctetBits * option error) :=
  '(its, ok, _) ← Parser.run o;
  if negb ok then
    Some (zero, Some (Errorf (String.append "invalid octet format in " o)))
  else Some (New its, None).

(** [for i, part := range parts { ... ip.octets[i] = bv }] *)
Fixpoint parse_parts (parts : list string) (i : nat) (ip : IPExpr)
  : option (error + IPExpr) :=
  match parts with
  | [] => Some (inr ip)
  | part :: parts' =>
      '(bv, err) ← parseOctet part;
      match err with
      | Some e => Some (inl e)
      | None => parse_parts parts' (S i) {| octets := <[i := bv]> (octets ip) |}
      end
  end.

(** [Parse] returns [(nil, err)] or [(ip, nil)]: a sum. *)
Definition Parse (expr : string) : option (error + IPExpr) :=
  let parts := Strings.Split expr "." in
  if negb (List.length parts =? 4)%nat then
    Some (inl (Errorf (String.append "invalid ip expression: " expr)))
  else parse_parts parts 0 zeroIPExpr.

End Ipexpr.

(** * Invariants, measures and reference definitions used by the statements *)

(** The state of the tokenizer. *)
Module LexerSpec.

Import Lexer.

(** What [readChar] establishes and every later step keeps: the read
    position is one ahead, and a byte other than [nul] in [ch] was read
    inside the input. *)
Definition Inv (l : Lexer) : Prop :=
  readPosition l = S (position l)
  /\ (ch l <> nul -> (position l < String.length (input l))%nat).

(** Bytes of the input still ahead of the lexer. *)
Definition remaining (l : Lexer) : nat :=
  (String.length (input l) - position l)%nat.

Definition eof : Token.Token := Token.New Token.EOF EmptyString.

(** [ch] is the byte under [position]. *)
Definition Sync (l : Lexer) : Prop :=
  (position l < String.length (input l))%nat ->
  String.get (position l) (input l) = Some (ch l).

Definition nul_free (s : string) : Prop :=
  forall n, String.get n s <> Some nul.

(** The tokens returned by [n] successive calls of [NextToken]. *)
Fixpoint tokens (n : nat) (l : Lexer) : option (list Token.Token) :=
  match n with
  | O => Some []
  | S n' =>
      '(t, l') ← NextToken l;
      ts ← tokens n' l';
      Some (t :: ts)
  end.

(** The lexer after [k] calls of [NextToken]. *)
Fixpoint after (k : nat) (l : Lexer) : option Lexer :=
  match k with
  | O => Some l
  | S k' => '(_, l') ← NextToken l; after k' l'
  end.

End LexerSpec.

(** The state of the parser, and bytes. *)
Module ParserSpec.

Import Parser LexerSpec.

Definition not_eof (t : Token.Token) : nat :=
  if String.eqb (Token.Typ t) Token.EOF then 0%nat else 1%nat.

(** Tokens the parser can still consume: the two lookahead slots and
    the bytes the lexer has not read. *)
Definition measure (p : Parser) : nat :=
  (remaining (l p) + not_eof (peekToken p) + not_eof (currToken p))%nat.

(** What every parser method keeps. *)
Definition keeps (p p' : Parser) : Prop :=
  Inv (l p') /\ Lexer.input (l p') = Lexer.input (l p)
  /\ (measure p' <= measure p)%nat.

Definition byte_range (n : Z) : Prop := 0 <= n <= 255.

Definition byte_interval (it : Interval) : Prop :=
  byte_range (fst it) /\ byte_range (snd it).

End ParserSpec.

(** Membership read off the interval list. *)
Module BitsvectorSpec.

Import Parser Bitsvector.

(** Membership of a byte in the union of the intervals, read off the
    interval list: [low <= v <= high] for one of them. *)
Definition in_interval (v : Z) (it : Interval) : bool :=
  (fst it <=? v) && (v <=? snd it).

Definition member (its : list Interval) (v : Z) : bool :=
  existsb (in_interval v) its.

(** The sentinel that [New] answers with [AllSet]. *)
Definition sentinel : list Interval := [(255, 255)].

End BitsvectorSpec.

(** Well-formed literal addresses, read off the text. *)
Module IpSpec.

Import Strconv.

(** A decimal digit string, read without looking at the code. *)
Fixpoint all_digits (s : string) : bool :=
  match s with
  | EmptyString => true
  | String c s' => Lexer.isDigit c && all_digits s'
  end.

Fixpoint decimal_from (n : Z) (s : string) : Z :=
  match s with
  | EmptyString => n
  | String c s' => decimal_from (n * 10 + digit_of c) s'
  end.

Definition decimal_value (s : string) : Z := decimal_from 0 s.

(** One component of a well-formed address: a non-empty decimal digit
    string (leading zeros allowed) with a value of at most 255. *)
Definition octet_literal (s : string) : bool :=
  negb (String.eqb s EmptyString) && all_digits s
  && (decimal_value s <=? 255).

(** A well-formed address: exactly four components, each an octet
    literal. *)
Definition well_formed (s : string) : bool :=
  match Strings.Split s "." with
  | [a; b; c; d] =>
      octet_literal a && octet_literal b && octet_literal c
      && octet_literal d
  | _ => false
  end.

End IpSpec.

(** The parser over a source, for statements about a parser in a given
    state; [Parser.New] always returns ([ParserFacts.New_ok]). *)
Definition parser_of (s : string) : Parser.Parser :=
  default {| Parser.l := Lexer.New s; Parser.errors := [];
             Parser.currToken := Token.New EmptyString EmptyString;
             Parser.peekToken := Token.New EmptyString EmptyString |}
    (Parser.New s).

(** The diagnostic of a failed expectation. *)
Definition expected_found (t : Token.Type_) (p : Parser.Parser) : string :=
  String.append "expected current token type is "
    (String.append t
       (String.append ", found " (Token.Typ (Parser.currToken p)))).

(** The interval parser rejects / accepts an octet expression. *)
Definition parse_fails (o : string) : Prop :=
  exists its errs, Parser.run o = Some (its, false, errs).

Definition invalid_octet (o : string) : error :=
  Errorf (String.append "invalid octet format in " o).

(** The lexer over [s] standing at byte [k]. *)
Definition at_pos (s : string) (k : nat) : Lexer.Lexer :=
  {| Lexer.input := s;
     Lexer.position := k;
     Lexer.readPosition := S k;
     Lexer.ch := if (String.length s <=? k)%nat then Lexer.nul
                 else default Lexer.nul (String.get k s) |}.

(** A string that does not go on with a digit. *)
Definition starts_nondigit (s : string) : Prop :=
  match s with
  | EmptyString => True
  | String c _ => Lexer.isDigit c = false
  end.

(** The diagnostic of [numberParsingError] on a literal. *)
Definition not_valid (lit : string) : string :=
  String.append "numeric value " (String.append lit " is not valid").

(** The octet set that a component of a pattern stands for: the set
    built from its intervals when the interval parser accepts it. *)
Definition compile_octet (o : string) : list Z :=
  match Parser.run o with
  | Some (its, true, _) => Bitsvector.New its
  | _ => Bitsvector.zero
  end.

(** The representation invariant of an octet set: 32 entries, each a
    byte. *)
Definition octet_bits_wf (o : list Z) : Prop :=
  length o = 32%nat /\ Forall ParserSpec.byte_range o.

(** * Properties of the tokenizer *)
Module LexerFacts.

Import Lexer LexerSpec.

Lemma readChar_Inv l : Inv (readChar l).
Proof.
  split; [cbn; lia|]. cbn.
  destruct (String.length (input l) <=? readPosition l)%nat eqn:E.
  - congruence.
  - intros _. now apply Nat.leb_gt in E.
Qed.

Lemma New_Inv s : Inv (New s).
Proof. apply readChar_Inv. Qed.

Lemma Inv_at_end l :
  Inv l -> (String.length (input l) <= position l)%nat -> ch l = nul.
Proof.
  intros [_ H] Hle. destruct (ascii_dec (ch l) nul) as [|Hne]; [done|].
  apply H in Hne. lia.
Qed.

Lemma read_while_total cond fuel l :
  cond nul = false -> Inv l -> (remaining l <= fuel)%nat ->
  exists l', read_while cond fuel l = Some l'.
Proof.
  intros Hnul. revert l.
  induction fuel as [|fuel IH]; intros l HI Hrem; cbn;
    destruct (cond (ch l)) eqn:Hc; eauto.
  - assert (ch l <> nul) as Hne by congruence.
    apply HI in Hne. unfold remaining in Hrem. lia.
  - assert (ch l <> nul) as Hne by congruence.
    apply HI in Hne. apply IH; [apply readChar_Inv|].
    destruct HI as [HI _]. unfold remaining in *. cbn. lia.
Qed.

Lemma read_while_spec cond fuel l l' :
  cond nul = false -> Inv l -> read_while cond fuel l = Some l' ->
  Inv l' /\ input l' = input l /\ (position l <= position l')%nat
  /\ cond (ch l') = false
  /\ (cond (ch l) = true -> (position l < position l')%nat).
Proof.
  intros Hnul. revert l.
  induction fuel as [|fuel IH]; intros l HI; cbn;
    destruct (cond (ch l)) eqn:Hc; intros Heq; try discriminate.
  - injection Heq as <-. repeat split; try (apply HI || lia || congruence).
  - apply IH in Heq; [|apply readChar_Inv].
    destruct Heq as (HI' & Hin & Hpos & Hc' & _).
    destruct HI as [Hrp _]. cbn in *.
    repeat split; try (apply HI' || lia || congruence).
  - injection Heq as <-. repeat split; try (apply HI || lia || congruence).
Qed.

Lemma isDigit_nul : isDigit nul = false.
Proof. reflexivity. Qed.

Lemma readNumber_total l :
  Inv l -> exists lit l', readNumber l = Some (lit, l').
Proof.
  intros HI. unfold readNumber.
  destruct (read_while_total isDigit (S (String.length (input l))) l)
    as [l2 H2]; [done|done|unfold remaining; lia|].
  rewrite H2. cbn. eauto.
Qed.

Lemma readNumber_spec l lit l' :
  Inv l -> readNumber l = Some (lit, l') ->
  Inv l' /\ input l' = input l /\ isDigit (ch l') = false
  /\ (isDigit (ch l) = true -> (position l < position l')%nat).
Proof.
  intros HI. unfold readNumber.
  destruct (read_while isDigit _ l) as [l2|] eqn:H2; [|done]. cbn.
  intros [= <- <-].
  apply read_while_spec in H2 as (HI2 & Hin2 & _ & Hd & Hlt); done.
Qed.

Lemma skipWhiteSpaces_total l :
  Inv l -> exists l', skipWhiteSpaces l = Some l'.
Proof.
  intros HI. apply read_while_total; [done|done|unfold remaining; lia].
Qed.

Lemma skipWhiteSpaces_spec l l' :
  Inv l -> skipWhiteSpaces l = Some l' ->
  Inv l' /\ input l' = input l /\ (position l <= position l')%nat
  /\ ch l' <> " "%char.
Proof.
  intros HI H. apply read_while_spec in H as (HI' & Hin & Hpos & Hc & _);
    [|done|done].
  do 3 (split; [done|]). intros E. rewrite E in Hc. discriminate.
Qed.

Local Arguments readNumber : simpl never.
Local Arguments skipWhiteSpaces : simpl never.
Local Arguments readChar : simpl never.

(** [NextToken] always returns. *)
Lemma NextToken_total l :
  Inv l -> exists t l', NextToken l = Some (t, l').
Proof.
  intros HI. unfold NextToken.
  destruct (skipWhiteSpaces_total l HI) as [l1 H1]. rewrite H1. cbn.
  apply skipWhiteSpaces_spec in H1 as (HI1 & _); [|done].
  repeat (match goal with |- context [if ?b then _ else _] => destruct b end;
          eauto).
  destruct (readNumber_total l1 HI1) as (lit & l2 & ->). cbn. eauto.
Qed.

(** A token moves the lexer forward, strictly so unless it is [EOF]. *)
Lemma NextToken_spec l t l' :
  Inv l -> NextToken l = Some (t, l') ->
  Inv l' /\ input l' = input l
  /\ (remaining l' <= remaining l)%nat
  /\ (Token.Typ t <> Token.EOF -> (remaining l' < remaining l)%nat).
Proof.
  intros HI. unfold NextToken.
  destruct (skipWhiteSpaces l) as [l1|] eqn:H1; [|done]. cbn.
  apply skipWhiteSpaces_spec in H1 as (HI1 & Hin1 & Hpos1 & _); [|done].
  assert (Hstep : ch l1 <> nul ->
            Inv (readChar l1) /\ input (readChar l1) = input l
            /\ (remaining (readChar l1) <= remaining l)%nat
            /\ (remaining (readChar l1) < remaining l)%nat).
  { intros Hne. destruct HI1 as [Hrp Hlt]. apply Hlt in Hne.
    split; [apply readChar_Inv|].
    unfold remaining, readChar. cbn. rewrite Hin1 in *.
    repeat split; lia. }
  destruct (Ascii.eqb_spec (ch l1) "-") as [E|_].
  { intros [= <- <-]. destruct Hstep as (?&?&?&?); [by rewrite E|done]. }
  destruct (Ascii.eqb_spec (ch l1) "*") as [E|_].
  { intros [= <- <-]. destruct Hstep as (?&?&?&?); [by rewrite E|done]. }
  destruct (Ascii.eqb_spec (ch l1) ",") as [E|_].
  { intros [= <- <-]. destruct Hstep as (?&?&?&?); [by rewrite E|done]. }
  destruct (Ascii.eqb_spec (ch l1) nul) as [E|Hne].
  { intros [= <- <-]. destruct HI1 as [Hrp _].
    split; [apply readChar_Inv|].
    unfold remaining, readChar. cbn. rewrite Hin1.
    repeat split; try (done || lia). }
  destruct (isDigit (ch l1)) eqn:Hd.
  - destruct (readNumber l1) as [[lit l2]|] eqn:H2; [|done]. cbn.
    intros [= <- <-].
    apply readNumber_spec in H2 as (HI2 & Hin2 & _ & Hlt); [|done].
    specialize (Hlt Hd). destruct HI1 as [_ Hin]. apply Hin in Hne.
    split; [exact HI2|].
    unfold remaining. rewrite Hin2, Hin1 in *.
    repeat split; try (done || lia).
  - intros [= <- <-]. destruct Hstep as (?&?&?&?); done.
Qed.

(** At the end of the input every call returns [EOF] with an empty
    literal and leaves the lexer at the end. *)
Lemma NextToken_at_end l :
  Inv l -> (String.length (input l) <= position l)%nat ->
  NextToken l = Some (eof, readChar l)
  /\ (String.length (input (readChar l)) <= position (readChar l))%nat.
Proof.
  intros HI Hle. pose proof (Inv_at_end l HI Hle) as Hch.
  unfold NextToken, skipWhiteSpaces. cbn. rewrite Hch. cbn.
  rewrite ?Hch. cbn.
  split; [reflexivity|]. destruct HI as [Hrp _]. unfold readChar. cbn. lia.
Qed.

Lemma tokens_at_end n l :
  Inv l -> (String.length (input l) <= position l)%nat ->
  tokens n l = Some (replicate n eof).
Proof.
  revert l. induction n as [|n IH]; intros l HI Hle; [reflexivity|].
  cbn [tokens]. destruct (NextToken_at_end l HI Hle) as [-> Hle'].
  cbn. rewrite IH; [reflexivity|apply readChar_Inv|exact Hle'].
Qed.

Lemma get_lt s n :
  (n < String.length s)%nat -> exists c, String.get n s = Some c.
Proof.
  revert n. induction s as [|a s IH]; intros n Hn; cbn in *; [lia|].
  destruct n; [eauto|]. apply IH. lia.
Qed.

Lemma readChar_Sync l : Sync (readChar l).
Proof.
  unfold Sync, readChar. cbn. intros Hlt.
  destruct (get_lt _ _ Hlt) as [c Hc]. rewrite Hc. cbn.
  apply Nat.leb_gt in Hlt. now rewrite Hlt.
Qed.

Lemma read_while_Sync cond fuel l l' :
  Sync l -> read_while cond fuel l = Some l' -> Sync l'.
Proof.
  revert l. induction fuel as [|fuel IH]; intros l HS; cbn;
    destruct (cond (ch l)); intros Heq; try discriminate.
  - now injection Heq as <-.
  - eapply IH; [|exact Heq]. apply readChar_Sync.
  - now injection Heq as <-.
Qed.

Lemma NextToken_Sync l t l' :
  Sync l -> NextToken l = Some (t, l') -> Sync l'.
Proof.
  intros HS. unfold NextToken.
  destruct (skipWhiteSpaces l) as [l1|] eqn:H1; [|done]. cbn.
  apply read_while_Sync in H1; [|done].
  repeat (match goal with |- context [if ?b then _ else _] => destruct b end;
          try (intros [= <- <-]; apply readChar_Sync)).
  unfold readNumber.
  destruct (read_while isDigit _ l1) as [l2|] eqn:H2; [|done]. cbn.
  intros [= <- <-]. eapply read_while_Sync; eauto.
Qed.

(** On an input without [nul] bytes, [EOF] is only returned at the end
    of the input. *)
Lemma EOF_only_at_end l t l' :
  Inv l -> Sync l -> nul_free (input l) ->
  NextToken l = Some (t, l') -> Token.Typ t = Token.EOF ->
  Inv l' /\ (String.length (input l') <= position l')%nat.
Proof.
  intros HI HS Hnf. unfold NextToken.
  destruct (skipWhiteSpaces l) as [l1|] eqn:H1; [|done]. cbn.
  pose proof H1 as H1'. apply read_while_Sync in H1'; [|done].
  apply skipWhiteSpaces_spec in H1 as (HI1 & Hin1 & _); [|done].
  destruct (Ascii.eqb_spec (ch l1) "-"); [intros [= <- <-]; discriminate|].
  destruct (Ascii.eqb_spec (ch l1) "*"); [intros [= <- <-]; discriminate|].
  destruct (Ascii.eqb_spec (ch l1) ","); [intros [= <- <-]; discriminate|].
  destruct (Ascii.eqb_spec (ch l1) nul) as [E|_].
  - intros [= <- <-] _. split; [apply readChar_Inv|].
    destruct (Nat.lt_ge_cases (position l1) (String.length (input l1)))
      as [Hlt|Hge].
    + apply H1' in Hlt. rewrite E, Hin1 in Hlt. now apply Hnf in Hlt.
    + destruct HI1 as [Hrp _]. unfold readChar. cbn. lia.
  - destruct (isDigit (ch l1)).
    + destruct (readNumber l1) as [[lit l2]|]; [|done]. cbn.
      intros [= <- <-]; discriminate.
    + intros [= <- <-]; discriminate.
Qed.

(** Without [nul] bytes in the input, the tokenizer is idempotent once
    it has returned [EOF]. *)
Lemma EOF_idempotent_nul_free l t l' n :
  Inv l -> Sync l -> nul_free (input l) ->
  NextToken l = Some (t, l') -> Token.Typ t = Token.EOF ->
  tokens n l' = Some (replicate n eof).
Proof.
  intros HI HS Hnf Hn Ht.
  destruct (EOF_only_at_end l t l' HI HS Hnf Hn Ht) as [HI' Hle].
  now apply tokens_at_end.
Qed.

Lemma after_keeps k : forall l l',
  Inv l -> Sync l -> after k l = Some l' ->
  Inv l' /\ Sync l' /\ input l' = input l.
Proof.
  induction k as [|k IH]; intros l l' HI HS; cbn [after].
  - intros [= <-]. done.
  - destruct (NextToken l) as [[t l1]|] eqn:Hn; [|done]. cbn.
    intros Hk. pose proof (NextToken_Sync _ _ _ HS Hn) as HS1.
    apply NextToken_spec in Hn as (HI1 & Hin1 & _); [|done].
    apply IH in Hk as (? & ? & ?); [|done|done].
    repeat split; try done; [apply H|apply H|congruence].
Qed.

End LexerFacts.

(** * Properties of the interval parser *)
Module ParserFacts.

Import Parser LexerSpec LexerFacts ParserSpec.
Local Open Scope parser_scope.

Lemma keeps_refl p : Inv (l p) -> keeps p p.
Proof. intros HI. split; [done|]. split; [done|lia]. Qed.

Lemma keeps_trans p1 p2 p3 : keeps p1 p2 -> keeps p2 p3 -> keeps p1 p3.
Proof.
  intros (? & E1 & ?) (? & E2 & ?).
  split; [done|]. split; [congruence|lia].
Qed.

Lemma push_error_ok msg p :
  Inv (l p) ->
  exists p', push_error msg p = Some (tt, p') /\ keeps p p'
             /\ measure p' = measure p
             /\ errors p' = errors p ++ [msg]
             /\ currToken p' = currToken p /\ peekToken p' = peekToken p
             /\ l p' = l p.
Proof.
  intros HI. eexists; split; [reflexivity|].
  split; [split; [exact HI|split; [reflexivity|reflexivity]]|].
  repeat split.
Qed.

Lemma nextToken_ok p :
  Inv (l p) ->
  exists p', nextToken p = Some (tt, p') /\ keeps p p'
             /\ errors p' = errors p
             /\ currToken p' = peekToken p
             /\ (Token.Typ (currToken p) <> Token.EOF ->
                 (measure p' < measure p)%nat).
Proof.
  intros HI. unfold nextToken.
  destruct (NextToken_total (l p) HI) as (t & l' & Hn). rewrite Hn.
  apply NextToken_spec in Hn as (HI' & Hin & Hle & Hlt); [|done].
  eexists; split; [reflexivity|].
  unfold keeps, measure, not_eof in *. cbn.
  destruct (String.eqb_spec (Token.Typ t) Token.EOF) as [E|E];
    [clear Hlt|specialize (Hlt E)];
    destruct (String.eqb (Token.Typ (peekToken p)) Token.EOF);
    destruct (String.eqb_spec (Token.Typ (currToken p)) Token.EOF);
    (split; [split; [exact HI'|split; [done|lia]]|]);
    repeat split; first [done | lia].
Qed.

Local Arguments nextToken : simpl never.
Local Arguments parseNumber : simpl never.
Local Arguments parseTerm : simpl never.
Local Arguments expectCurrIs : simpl never.

(** A step that only appends diagnostics. *)
Local Ltac error_path HI :=
  eexists _, _, _; split; [reflexivity|];
  split; [split; [exact HI|split; reflexivity]|try discriminate].

Lemma byte_of_range n : byte_range n -> byte_of n = n.
Proof. intros H. unfold byte_of. apply Z.mod_small. red in H. lia. Qed.

Lemma parseNumber_ok p :
  Inv (l p) ->
  exists n ok p', parseNumber p = Some ((n, ok), p') /\ keeps p p'
    /\ (ok = true ->
        byte_range n /\ (measure p' < measure p)%nat
        /\ errors p' = errors p).
Proof.
  intros HI. unfold parseNumber, bind, currTokenIs, get, ret. cbn.
  destruct (String.eqb_spec (Token.Typ (currToken p)) Token.NUMBER)
    as [E|E]; cbn; [|error_path HI].
  destruct (Strconv.Atoi _) as [e|num]; cbn; [error_path HI|].
  destruct ((num <? 0) || (255 <? num)) eqn:R; cbn; [error_path HI|].
  destruct (nextToken_ok p HI) as (p' & Hn & Hk & He & _ & Hlt).
  rewrite Hn. eexists _, _, _; split; [reflexivity|]. split; [done|].
  intros _. apply orb_false_iff in R as [R1 R2].
  apply Z.ltb_ge in R1, R2.
  split; [rewrite byte_of_range; red; lia|]. split; [|done].
  apply Hlt. rewrite E. discriminate.
Qed.

Lemma parseTerm_ok p :
  Inv (l p) ->
  exists it ok p', parseTerm p = Some ((it, ok), p') /\ keeps p p'
    /\ (ok = true -> byte_interval it /\ (measure p' < measure p)%nat).
Proof.
  intros HI. unfold parseTerm, bind, currTokenIs, get, ret. cbn.
  destruct (String.eqb_spec (Token.Typ (currToken p)) Token.ASTERISK)
    as [E|E]; cbn.
  { destruct (nextToken_ok p HI) as (p' & Hn & Hk & _ & _ & Hlt).
    rewrite Hn. eexists _, _, _; split; [reflexivity|]. split; [done|].
    intros _. split; [repeat split; cbn; lia|].
    apply Hlt. rewrite E. discriminate. }
  destruct (parseNumber_ok p HI) as (n1 & ok1 & p1 & Hp1 & Hk1 & Hok1).
  rewrite Hp1. pose proof Hk1 as (HI1 & _).
  destruct ok1; cbn; [|eexists _, _, _;
    split; [reflexivity|]; split; [|discriminate];
    split; [exact HI1|split; apply Hk1]].
  destruct (Hok1 eq_refl) as (Hb1 & Hlt1 & _).
  destruct (String.eqb_spec (Token.Typ (currToken p1)) Token.DASH)
    as [E1|E1]; cbn;
    [|eexists _, _, _; split; [reflexivity|]; split; [done|];
      intros _; split; [split; exact Hb1|exact Hlt1]].
  destruct (nextToken_ok p1 HI1) as (p2 & Hn2 & Hk2 & _).
  rewrite Hn2. pose proof Hk2 as (HI2 & _).
  destruct (parseNumber_ok p2 HI2) as (n2 & ok2 & p3 & Hp3 & Hk3 & Hok3).
  rewrite Hp3. pose proof Hk3 as (HI3 & _).
  pose proof (keeps_trans _ _ _ Hk1 (keeps_trans _ _ _ Hk2 Hk3)) as Hk.
  destruct ok2; cbn; [|eexists _, _, _;
    split; [reflexivity|]; split; [|discriminate];
    split; [exact HI3|split; apply Hk]].
  eexists _, _, _; split; [reflexivity|]. split; [done|]. intros _.
  destruct (Hok3 eq_refl) as (Hb3 & Hlt3 & _).
  split; [split; done|]. destruct Hk2 as (_ & _ & Hle2). lia.
Qed.

Lemma expectCurrIs_ok t p :
  Inv (l p) ->
  exists b p', expectCurrIs t p = Some (b, p') /\ keeps p p'.
Proof.
  intros HI. unfold expectCurrIs, bind, currTokenIs, get, ret. cbn.
  destruct (String.eqb (Token.Typ (currToken p)) t); cbn.
  - destruct (nextToken_ok p HI) as (p' & Hn & Hk & _).
    rewrite Hn. eauto.
  - eexists _, _; split; [reflexivity|].
    split; [exact HI|split; reflexivity].
Qed.

Lemma parseExpr_loop_ok fuel : forall its p,
  Inv (l p) -> (measure p <= fuel)%nat -> Forall byte_interval its ->
  exists its' ok p',
    parseExpr_loop fuel its p = Some ((its', ok), p') /\ Inv (l p')
    /\ (ok = true -> Forall byte_interval its')
    /\ (ok = false -> its' = []).
Proof.
  induction fuel as [|fuel IH]; intros its p HI Hm Hits;
    cbn [parseExpr_loop]; unfold bind, currTokenIs, peekTokenIs, get, ret;
    cbn;
    (destruct (String.eqb (Token.Typ (currToken p)) Token.EOF) eqn:E; cbn;
     [eexists _, _, _; split; [reflexivity|]; split; [done|];
      split; [done|discriminate]|]).
  { unfold measure, not_eof in Hm. rewrite E in Hm. lia. }
  destruct (parseTerm_ok p HI) as (it & ok & p1 & Hp1 & Hk1 & Hok1).
  rewrite Hp1. destruct Hk1 as (HI1 & _ & _).
  destruct ok; cbn;
    [|eexists _, _, _; split; [reflexivity|]; split; [done|];
      split; [discriminate|done]].
  destruct (Hok1 eq_refl) as (Hit & Hlt).
  assert (Forall byte_interval (its ++ [it])) as Hits'.
  { apply Forall_app. split; [done|]. by constructor. }
  destruct (String.eqb (Token.Typ (peekToken p1)) Token.EOF); cbn.
  - apply IH; [done|lia|done].
  - destruct (expectCurrIs_ok Token.COMMA p1 HI1) as (b & p2 & Hp2 & Hk2).
    rewrite Hp2. destruct Hk2 as (HI2 & _ & Hle2).
    apply IH; [done|lia|done].
Qed.

Lemma measure_bound p :
  (measure p <= String.length (Lexer.input (l p)) + 2)%nat.
Proof.
  unfold measure, remaining, not_eof.
  repeat match goal with |- context [if ?b then _ else _] => destruct b end;
    lia.
Qed.

(** [Parse] always returns; what it returns on success is a non-empty
    list of intervals between bytes, and on failure the empty list. *)
Lemma Parse_ok p :
  Inv (l p) ->
  exists its ok p',
    Parse p = Some ((its, ok), p')
    /\ (ok = true -> Forall byte_interval its /\ its <> [])
    /\ (ok = false -> its = []).
Proof.
  intros HI. unfold Parse, parseExpr, bind, get, ret. cbn.
  destruct (parseExpr_loop_ok _ [] p HI (measure_bound p) (List.Forall_nil _))
    as (its & ok & p' & Hp & HI' & Hok & Hko).
  rewrite Hp. destruct ok; cbn;
    [|eexists _, _, _; split; [reflexivity|]; split; [discriminate|done]].
  destruct its as [|it its]; cbn.
  - eexists _, _, _; split; [reflexivity|]. split; [discriminate|done].
  - eexists _, _, _; split; [reflexivity|]. split; [|discriminate].
    intros _. split; [by apply Hok|discriminate].
Qed.

Lemma New_ok s : exists p, New s = Some p /\ Inv (l p) /\ errors p = [].
Proof.
  unfold New, bind.
  set (p0 := {| l := Lexer.New s; errors := [] |}).
  destruct (nextToken_ok p0 (New_Inv s)) as (p1 & H1 & (HI1 & _) & He1 & _).
  rewrite H1.
  destruct (nextToken_ok p1 HI1) as (p2 & H2 & (HI2 & _) & He2 & _).
  rewrite H2. cbn. eexists; split; [reflexivity|]. split; [done|].
  rewrite He2, He1. reflexivity.
Qed.

(** Parsing an octet expression always returns. *)
Lemma run_total s :
  exists its ok errs,
    run s = Some (its, ok, errs)
    /\ (ok = true -> Forall byte_interval its /\ its <> [])
    /\ (ok = false -> its = []).
Proof.
  unfold run. destruct (New_ok s) as (p & -> & HI & _). cbn.
  destruct (Parse_ok p HI) as (its & ok & p' & -> & H1 & H2). cbn.
  eauto 6.
Qed.

End ParserFacts.

(** * Properties of the octet set *)
Module BitsvectorFacts.

Import Parser Bitsvector ParserSpec ParserFacts BitsvectorSpec.

Lemma land_pow2 a k :
  0 <= k -> Z.land a (2 ^ k) = if Z.testbit a k then 2 ^ k else 0.
Proof.
  intros Hk. apply Z.bits_inj'. intros i Hi.
  rewrite Z.land_spec, Z.pow2_bits_eqb by lia.
  destruct (Z.eqb_spec k i) as [->|Hne].
  - rewrite andb_true_r. destruct (Z.testbit a i) eqn:E.
    + rewrite Z.pow2_bits_eqb by lia. now rewrite Z.eqb_refl.
    + now rewrite Z.testbit_0_l.
  - rewrite andb_false_r. destruct (Z.testbit a k).
    + rewrite Z.pow2_bits_eqb by lia. symmetry. now apply Z.eqb_neq.
    + now rewrite Z.testbit_0_l.
Qed.

Lemma mask_pow2 n : mask n = 2 ^ (n mod 8).
Proof.
  unfold mask, byte_of. rewrite Z.shiftl_1_l.
  pose proof (Z.mod_pos_bound n 8 ltac:(lia)) as Hb.
  apply Z.mod_small. split; [apply Z.pow_nonneg; lia|].
  change 256 with (2 ^ 8). apply Z.pow_lt_mono_r; lia.
Qed.

(** [Test] reads bit [n % 8] of byte [n / 8]. *)
Lemma Test_testbit o n :
  Test o n = Z.testbit (at_ o (n / 8)) (n mod 8).
Proof.
  unfold Test. rewrite mask_pow2.
  pose proof (Z.mod_pos_bound n 8 ltac:(lia)) as Hb.
  rewrite land_pow2 by lia. destruct (Z.testbit _ _); [|reflexivity].
  assert (0 < 2 ^ (n mod 8)) by (apply Z.pow_pos_nonneg; lia).
  destruct (Z.eqb_spec (2 ^ (n mod 8)) 0); [lia|reflexivity].
Qed.

Lemma length_set o n : length (set o n) = length o.
Proof. unfold set. apply length_insert. Qed.

Lemma Test_set o n v :
  length o = 32%nat -> byte_range n -> byte_range v ->
  Test (set o n) v = (v =? n) || Test o v.
Proof.
  unfold byte_range. intros Hlen Hn Hv. rewrite !Test_testbit.
  unfold set, at_.
  assert (0 <= n / 8 < 32) as Hq
    by (split; [apply Z.div_pos; lia|apply Z.div_lt_upper_bound; lia]).
  assert (0 <= v / 8 < 32) as Hqv
    by (split; [apply Z.div_pos; lia|apply Z.div_lt_upper_bound; lia]).
  pose proof (Z.mod_pos_bound n 8 ltac:(lia)) as Hbn.
  pose proof (Z.mod_pos_bound v 8 ltac:(lia)) as Hbv.
  pose proof (Z.div_mod n 8 ltac:(lia)) as Dn.
  pose proof (Z.div_mod v 8 ltac:(lia)) as Dv.
  destruct (Z.eq_dec (v / 8) (n / 8)) as [Eq|Ne].
  - rewrite Eq, list_lookup_insert_eq by lia. cbn.
    rewrite Z.lor_spec, mask_pow2, Z.pow2_bits_eqb by lia.
    rewrite orb_comm. f_equal.
    destruct (Z.eqb_spec (n mod 8) (v mod 8)), (Z.eqb_spec v n);
      try reflexivity; lia.
  - rewrite list_lookup_insert_ne by lia.
    destruct (Z.eqb_spec v n) as [->|_]; [done|reflexivity].
Qed.

Lemma length_set_range fuel : forall i e o,
  length (set_range fuel i e o) = length o.
Proof.
  induction fuel as [|fuel IH]; intros i e o; cbn; [reflexivity|].
  destruct (i <=? e); [|reflexivity]. rewrite IH. apply length_set.
Qed.

(** The loop sets exactly the bits of [[i, e]], provided the fuel
    covers the distance. *)
Lemma Test_set_range fuel : forall i e o v,
  length o = 32%nat -> 0 <= i -> e <= 255 ->
  e - i + 1 <= Z.of_nat fuel -> byte_range v ->
  Test (set_range fuel i e o) v = ((i <=? v) && (v <=? e)) || Test o v.
Proof.
  induction fuel as [|fuel IH]; intros i e o v Hlen Hi He Hf Hv; cbn.
  - destruct (Z.leb_spec i v), (Z.leb_spec v e); try reflexivity; lia.
  - destruct (Z.leb_spec i e) as [Hie|Hie].
    + rewrite IH; try (done || lia); [|by rewrite length_set].
      rewrite byte_of_range by (red; lia).
      rewrite Test_set by (done || red; lia).
      destruct (Z.leb_spec (i + 1) v), (Z.leb_spec i v), (Z.leb_spec v e),
        (Z.eqb_spec v i); cbn; try reflexivity; lia.
    + destruct (Z.leb_spec i v), (Z.leb_spec v e); try reflexivity; lia.
Qed.

Lemma Test_set_range_256 i e o v :
  length o = 32%nat -> byte_range i -> byte_range e -> byte_range v ->
  Test (set_range 256 i e o) v = ((i <=? v) && (v <=? e)) || Test o v.
Proof.
  unfold byte_range. intros Hlen Hi He Hv.
  apply Test_set_range; (done || lia).
Qed.

Lemma length_set_intervals its : forall o,
  length (set_intervals its o) = length o.
Proof.
  induction its as [|[lo hi] its IH]; intros o; cbn [set_intervals];
    [reflexivity|].
  rewrite IH. apply length_set_range.
Qed.

Lemma Test_set_intervals its : forall o v,
  Forall byte_interval its -> length o = 32%nat -> byte_range v ->
  Test (set_intervals its o) v = member its v || Test o v.
Proof.
  induction its as [|[lo hi] its IH]; intros o v Hits Hlen Hv;
    cbn [set_intervals member existsb]; [reflexivity|].
  inversion Hits as [|? ? [Hlo Hhi] Hits']; subst. cbn [fst snd] in *.
  rewrite IH; [|done|by rewrite length_set_range|done].
  rewrite Test_set_range_256 by (done || red; lia).
  unfold member, in_interval. cbn [fst snd].
  destruct (existsb _ its), ((lo <=? v) && (v <=? hi)), (Test o v);
    reflexivity.
Qed.

Lemma at_replicate c i : 0 <= i < 32 -> at_ (replicate 32 c) i = c.
Proof.
  intros Hi. unfold at_. rewrite lookup_replicate_2 by lia. reflexivity.
Qed.

Lemma Test_zero v : byte_range v -> Test zero v = false.
Proof.
  unfold byte_range. intros Hv. rewrite Test_testbit. unfold zero.
  rewrite at_replicate; [apply Z.testbit_0_l|].
  split; [apply Z.div_pos; lia|apply Z.div_lt_upper_bound; lia].
Qed.

Lemma Test_AllSet v : byte_range v -> Test AllSet v = true.
Proof.
  unfold byte_range. intros Hv. rewrite Test_testbit. unfold AllSet.
  rewrite at_replicate
    by (split; [apply Z.div_pos; lia|apply Z.div_lt_upper_bound; lia]).
  pose proof (Z.mod_pos_bound v 8 ltac:(lia)) as Hb.
  change 255 with (Z.ones 8). apply Z.ones_spec_low. lia.
Qed.

Lemma New_sentinel : New sentinel = AllSet.
Proof. reflexivity. Qed.

Lemma New_other its : its <> sentinel -> New its = set_intervals its zero.
Proof.
  intros Hne. unfold New. destruct its as [|[lo hi] [|it its]]; try done.
  destruct (Z.eqb_spec lo hi) as [->|]; [|done].
  destruct (Z.eqb_spec hi 255) as [->|]; done.
Qed.

Lemma Test_New_other its v :
  its <> sentinel -> Forall byte_interval its -> byte_range v ->
  Test (New its) v = member its v.
Proof.
  intros Hne Hits Hv. rewrite New_other by done.
  rewrite Test_set_intervals by done. rewrite Test_zero by done.
  apply orb_false_r.
Qed.

Lemma member_true its v :
  member its v = true <->
  exists lo hi, In (lo, hi) its /\ lo <= v <= hi.
Proof.
  unfold member. rewrite existsb_exists. split.
  - intros ([lo hi] & Hin & H). exists lo, hi. split; [done|].
    unfold in_interval in H. cbn in H. lia.
  - intros (lo & hi & Hin & H). exists (lo, hi). split; [done|].
    unfold in_interval. cbn. lia.
Qed.

End BitsvectorFacts.

(** * Properties of the literal address parser *)
Module IpFacts.

Import Strconv ParserSpec ParserFacts IpSpec.

Lemma digit_of_range c : Lexer.isDigit c = true -> 0 <= digit_of c <= 9.
Proof.
  unfold Lexer.isDigit, digit_of. intros H.
  apply andb_true_iff in H as [H1 H2].
  apply Nat.leb_le in H1, H2.
  change (nat_of_ascii "0") with 48%nat in H1.
  change (nat_of_ascii "9") with 57%nat in H2. lia.
Qed.

Lemma decimal_from_ge s : forall n,
  0 <= n -> all_digits s = true -> n <= decimal_from n s.
Proof.
  induction s as [|c s IH]; intros n Hn Hd; cbn in *; [lia|].
  apply andb_true_iff in Hd as [Hc Hd].
  pose proof (digit_of_range c Hc).
  etransitivity; [|apply IH; [lia|done]]. lia.
Qed.

Lemma parse_digits_inr maxVal s : forall n v,
  0 <= n <= maxVal ->
  parse_digits maxVal n s = inr v <->
  all_digits s = true /\ decimal_from n s <= maxVal
  /\ v = decimal_from n s.
Proof.
  induction s as [|c s IH]; intros n v Hn; cbn.
  - split; [intros [= <-]; repeat split; lia|intros (_ & _ & ->); done].
  - destruct (Lexer.isDigit c) eqn:Hc; cbn;
      [|split; [discriminate|intros ([=] & _)]].
    pose proof (digit_of_range c Hc) as Hr.
    destruct (Z.ltb_spec maxVal (n * 10 + digit_of c)) as [Hlt|Hle].
    + split; [discriminate|]. intros (Hd & Hv & _). exfalso.
      pose proof (decimal_from_ge s (n * 10 + digit_of c) ltac:(lia) Hd).
      lia.
    + apply IH. lia.
Qed.

Lemma ParseUint8_inr s v :
  ParseUint8 s = inr v <-> octet_literal s = true /\ v = decimal_value s.
Proof.
  unfold ParseUint8, octet_literal, decimal_value.
  destruct s as [|c s]; [cbn; split; [discriminate|intros ([=] & _)]|].
  rewrite parse_digits_inr by lia.
  change (String c s =? EmptyString)%string with false. cbn [negb andb].
  rewrite andb_true_iff, Z.leb_le. split.
  - intros (Hd & Hv & ->). done.
  - intros ((Hd & Hv) & ->). done.
Qed.

Lemma ParseUint8_cases s :
  (octet_literal s = true /\ ParseUint8 s = inr (decimal_value s)
   /\ byte_range (decimal_value s))
  \/ (octet_literal s = false /\ exists e, ParseUint8 s = inl e).
Proof.
  destruct (octet_literal s) eqn:Ho.
  - left. split; [done|]. split; [by apply ParseUint8_inr|].
    unfold octet_literal in Ho.
    apply andb_true_iff in Ho as [Ho Hv].
    apply andb_true_iff in Ho as [_ Hd]. apply Z.leb_le in Hv.
    split; [|done]. apply (decimal_from_ge s 0); [lia|done].
  - right. split; [done|]. destruct (ParseUint8 s) as [e|v] eqn:E; [eauto|].
    apply ParseUint8_inr in E as [E _]. congruence.
Qed.

(** What [ip.Parse] returns, from the shape of the address alone. *)
Lemma Parse_spec s :
  match Strings.Split s "." with
  | [a; b; c; d] =>
      if well_formed s then
        Ip.Parse s = ([decimal_value a; decimal_value b;
                       decimal_value c; decimal_value d], None)
      else exists e, Ip.Parse s = (Ip.IPv4zero, Some e)
  | _ => well_formed s = false
         /\ Ip.Parse s
            = (Ip.IPv4zero, Some (Errorf (String.append "invalid ip: " s)))
  end.
Proof.
  unfold well_formed, Ip.Parse.
  destruct (Strings.Split s ".") as [|a [|b [|c [|d [|x r]]]]];
    try (split; reflexivity).
  cbn [List.length Nat.eqb negb Ip.parse_octets].
  destruct (ParseUint8_cases a) as [(-> & -> & Ha)|(-> & ea & ->)];
    [|cbn; eauto].
  destruct (ParseUint8_cases b) as [(-> & -> & Hb)|(-> & eb & ->)];
    [|cbn; eauto].
  destruct (ParseUint8_cases c) as [(-> & -> & Hc)|(-> & ec & ->)];
    [|cbn; eauto].
  destruct (ParseUint8_cases d) as [(-> & -> & Hd)|(-> & ed & ->)];
    [|cbn; eauto].
  rewrite !byte_of_range by done. reflexivity.
Qed.

End IpFacts.

Local Open Scope string_scope.
Local Open Scope Z_scope.

(** ** The embedding on the inputs of the repository's tests *)

Example lexer_test_mixed :
  LexerSpec.tokens 6 (Lexer.New "1,2-*")
  = Some [Token.New Token.NUMBER "1"; Token.New Token.COMMA ",";
          Token.New Token.NUMBER "2"; Token.New Token.DASH "-";
          Token.New Token.ASTERISK "*"; LexerSpec.eof].
Proof. reflexivity. Qed.

Example lexer_test_spaces_and_zeros :
  LexerSpec.tokens 4 (Lexer.New " 000 - 2")
  = Some [Token.New Token.NUMBER "000"; Token.New Token.DASH "-";
          Token.New Token.NUMBER "2"; LexerSpec.eof].
Proof. reflexivity. Qed.

Example lexer_test_illegal :
  LexerSpec.tokens 4 (Lexer.New "1.2")
  = Some [Token.New Token.NUMBER "1"; Token.New Token.ILLEGAL ".";
          Token.New Token.NUMBER "2"; LexerSpec.eof].
Proof. reflexivity. Qed.

Example parser_test_valid :
  Parser.run "0,1-2,4-5" = Some ([(0, 0); (1, 2); (4, 5)], true, [])
  /\ Parser.run "0, 2, *" = Some ([(0, 0); (2, 2); (0, 255)], true, [])
  /\ Parser.run "123" = Some ([(123, 123)], true, []).
Proof. repeat split. Qed.

Example parser_test_invalid :
  Parser.run EmptyString
  = Some ([], false, ["a valid octet should have at least 1 range"])
  /\ Parser.run "256"
     = Some ([], false, ["numeric value 256 is not valid";
                         "numeric value 256 is not valid"])
  /\ Parser.run "1,"
     = Some ([], false, ["expected current token type is NUMBER, found COMMA";
                         "numeric value , is not valid"])
  /\ Parser.run "-1"
     = Some ([], false, ["expected current token type is NUMBER, found DASH";
                         "numeric value - is not valid"]).
Proof. repeat split. Qed.

Example bitsvector_test_intervals :
  map (Bitsvector.Test (Bitsvector.New [(10, 12); (200, 200)]))
    [9; 10; 11; 12; 13; 199; 200; 201]
  = [false; true; true; true; false; false; true; false]
  /\ Bitsvector.New [(0, 255)] = Bitsvector.AllSet
  /\ Bitsvector.New [] = Bitsvector.zero.
Proof. repeat split; vm_compute; reflexivity. Qed.

Example ip_test_parse :
  Ip.Parse "10.0.1.255" = ([10; 0; 1; 255], None)
  /\ Ip.Parse "192.168.1"
     = (Ip.IPv4zero, Some (Errorf "invalid ip: 192.168.1"))
  /\ Ip.Parse "192.168.1.256"
     = (Ip.IPv4zero, Some (NumError "ParseUint" "256" Strconv.ErrRange)).
Proof. repeat split. Qed.

(** * The generator *)

(** With all four counters at zero the guard of the loop fails at once,
    whatever the fuel. *)
Lemma generate_loop_zero fuel ie i :
  Ipexpr.generate_loop fuel ie [0; 0; 0; 0] i = Some [].
Proof. destruct fuel; reflexivity. Qed.

(** C8: for every pattern, compiled or not, [Generate] yields no element
    at all: the counters start at zero and the loop guard asks for all
    four to be non-zero, so the body is never entered.  No fuel is needed
    for that. *)
Theorem Generate_yields_nothing :
  forall (ie : Ipexpr.IPExpr) (fuel : nat), Ipexpr.Generate fuel ie = Some [].
Proof. intros ie fuel. apply generate_loop_zero. Qed.

(** C1, evaluated on the code: the pattern 10.0.1,3,5.1 compiles and
    matches 10.0.1.1, 10.0.3.1 and 10.0.5.1 (and not 10.0.2.1), yet
    [Generate] on it yields the empty sequence instead of these three
    addresses. *)
Theorem Generate_misses_the_matching_addresses :
  exists ie,
    Ipexpr.Parse "10.0.1,3,5.1" = Some (inr ie)
    /\ Ipexpr.Matches ie "10.0.1.1" = (true, None)
    /\ Ipexpr.Matches ie "10.0.3.1" = (true, None)
    /\ Ipexpr.Matches ie "10.0.5.1" = (true, None)
    /\ Ipexpr.Matches ie "10.0.2.1" = (false, None)
    /\ forall fuel, Ipexpr.Generate fuel ie = Some [].
Proof.
  eexists. split; [vm_compute; reflexivity|].
  repeat (split; [vm_compute; reflexivity|]).
  intros fuel. apply generate_loop_zero.
Qed.

(** * The tokenizer at the end of the stream *)

(** C7, evaluated on the code: on the two-byte source made of a [nul]
    byte and the digit 1, the first call returns [EOF] with an empty
    literal and the second call returns the NUMBER token 1: the tokenizer
    takes a [nul] byte inside the input for the end of the input and goes
    on reading after it. *)
Theorem NextToken_EOF_not_idempotent_on_nul :
  LexerSpec.tokens 3 (Lexer.New (String Lexer.nul "1"))
  = Some [Token.New Token.EOF EmptyString; Token.New Token.NUMBER "1";
          Token.New Token.EOF EmptyString].
Proof. reflexivity. Qed.

(** The same defect seen from the parser: everything after a [nul] byte
    is dropped, and the octet expression is accepted. *)
Lemma Parse_stops_at_nul :
  Parser.run (String "1" (String Lexer.nul "2"))
  = Some ([(1, 1)], true,
          ["expected current token type is COMMA, found EOF"]).
Proof. reflexivity. Qed.

(** X13: away from [nul] bytes the tokenizer is idempotent at the end of
    the stream: for a source without them, once a call has returned [EOF]
    (after any number [k] of earlier calls) the next [n] calls all return
    [EOF] with an empty literal. *)
Lemma NextToken_EOF_idempotent_without_nul s k l t l' n :
  LexerSpec.nul_free s ->
  LexerSpec.after k (Lexer.New s) = Some l ->
  Lexer.NextToken l = Some (t, l') ->
  Token.Typ t = Token.EOF ->
  LexerSpec.tokens n l' = Some (replicate n LexerSpec.eof).
Proof.
  intros Hnf Hk Hn Ht.
  destruct (LexerFacts.after_keeps k (Lexer.New s) l) as (HI & HS & Hin);
    [apply LexerFacts.New_Inv|apply LexerFacts.readChar_Sync|done|].
  eapply LexerFacts.EOF_idempotent_nul_free; eauto. now rewrite Hin.
Qed.

(** * The interval parser *)

#[local] Arguments Strconv.Atoi : simpl never.
#[local] Arguments Lexer.NextToken : simpl never.

(** C9: inputs with two adjacent terms and no comma between them are
    accepted with both intervals: "1 2" and "1*" (for these two the comma
    is not even asked for, the token after the second term being [EOF]),
    and "1 2-3".  A failed expectation appends a diagnostic, returns
    false and leaves the tokens where they are; [parseExpr] ignores its
    result, so that [Parse] on "1 2-3" succeeds with a diagnostic
    recorded. *)
Theorem Parse_accepts_adjacent_terms :
  Parser.run "1 2" = Some ([(1, 1); (2, 2)], true, [])
  /\ Parser.run "1*" = Some ([(1, 1); (0, 255)], true, [])
  /\ Parser.run "1 2-3"
     = Some ([(1, 1); (2, 3)], true,
             ["expected current token type is COMMA, found NUMBER"])
  /\ forall p : Parser.Parser,
       Token.Typ (Parser.currToken p) <> Token.COMMA ->
       Parser.expectCurrIs Token.COMMA p
       = Some (false,
               {| Parser.l := Parser.l p;
                  Parser.errors :=
                    Parser.errors p ++ [expected_found Token.COMMA p];
                  Parser.currToken := Parser.currToken p;
                  Parser.peekToken := Parser.peekToken p |}).
Proof.
  do 3 (split; [vm_compute; reflexivity|]).
  intros p Hne. unfold Parser.expectCurrIs, Parser.bind, Parser.currTokenIs,
    Parser.get, Parser.ret. cbn.
  apply String.eqb_neq in Hne. rewrite Hne. reflexivity.
Qed.

Lemma Parse_accepts_adjacent_terms_witness :
  Parser.expectCurrIs Token.COMMA (parser_of "1 2-3")
  = Some (false,
          {| Parser.l := Parser.l (parser_of "1 2-3");
             Parser.errors :=
               Parser.errors (parser_of "1 2-3")
               ++ [expected_found Token.COMMA (parser_of "1 2-3")];
             Parser.currToken := Parser.currToken (parser_of "1 2-3");
             Parser.peekToken := Parser.peekToken (parser_of "1 2-3") |}).
Proof.
  apply (proj2 (proj2 (proj2 Parse_accepts_adjacent_terms))).
  vm_compute. discriminate.
Defined.

(** C4: a term NUMBER '-' NUMBER parses to the interval of its two
    numbers, whatever their order: in any parser state with a NUMBER in
    the current slot, a DASH in the peek slot and a NUMBER next in the
    lexer, both literals denoting bytes, [parseTerm] succeeds with
    [{start, end}] and records no diagnostic.  When [start > end] the
    octet set built from that interval tests false on every byte. *)
Theorem parseTerm_range_any_order :
  forall (p : Parser.Parser) (lb : string) (l1 : Lexer.Lexer)
         (start end_ : Z),
    LexerSpec.Inv (Parser.l p) ->
    Token.Typ (Parser.currToken p) = Token.NUMBER ->
    Token.Typ (Parser.peekToken p) = Token.DASH ->
    Lexer.NextToken (Parser.l p) = Some (Token.New Token.NUMBER lb, l1) ->
    Strconv.Atoi (Token.Literal (Parser.currToken p)) = inr start ->
    Strconv.Atoi lb = inr end_ ->
    ParserSpec.byte_range start -> ParserSpec.byte_range end_ ->
    (exists p', Parser.parseTerm p = Some ((start, end_, true), p')
                /\ Parser.errors p' = Parser.errors p)
    /\ (end_ < start ->
        forall v, ParserSpec.byte_range v ->
                  Bitsvector.Test (Bitsvector.New [(start, end_)]) v = false).
Proof.
  intros p lb l1 a b HI Hc Hp Hn Ha Hb Ra Rb. split.
  - assert (Hrange : forall n, ParserSpec.byte_range n ->
                       (n <? 0) || (255 <? n) = false).
    { intros n [? ?]. apply orb_false_iff.
      split; apply Z.ltb_ge; lia. }
    pose proof Hn as Hn'.
    apply LexerFacts.NextToken_spec in Hn' as (HI1 & _); [|done].
    destruct (LexerFacts.NextToken_total l1 HI1) as (t2 & l2 & Hn2).
    pose proof Hn2 as Hn2'.
    apply LexerFacts.NextToken_spec in Hn2' as (HI2 & _); [|done].
    destruct (LexerFacts.NextToken_total l2 HI2) as (t3 & l3 & Hn3).
    unfold Parser.parseTerm, Parser.parseNumber, Parser.bind,
      Parser.currTokenIs, Parser.get, Parser.ret, Parser.nextToken.
    repeat (cbn;
            first [ rewrite Hc | rewrite Ha | rewrite (Hrange a Ra)
                  | rewrite Hn | rewrite Hp | rewrite Hn2 | rewrite Hb
                  | rewrite (Hrange b Rb) | rewrite Hn3 ]).
    cbn. rewrite !ParserFacts.byte_of_range by done. eauto.
  - intros Hlt v Rv.
    rewrite BitsvectorFacts.Test_New_other; try done.
    + unfold BitsvectorSpec.member, BitsvectorSpec.in_interval. cbn.
      destruct (Z.leb_spec a v), (Z.leb_spec v b); try reflexivity. lia.
    + unfold BitsvectorSpec.sentinel. intros [= -> ->]. lia.
    + repeat constructor; cbn; apply Ra || apply Rb.
Qed.

Lemma parseTerm_range_any_order_witness :
  (exists p', Parser.parseTerm (parser_of "5-1") = Some ((5, 1, true), p')
              /\ Parser.errors p' = Parser.errors (parser_of "5-1"))
  /\ (1 < 5 ->
      forall v, ParserSpec.byte_range v ->
                Bitsvector.Test (Bitsvector.New [(5, 1)]) v = false).
Proof.
  eapply (parseTerm_range_any_order (parser_of "5-1") "1").
  - split; [reflexivity|]. intros _. vm_compute. lia.
  - reflexivity.
  - reflexivity.
  - vm_compute. reflexivity.
  - reflexivity.
  - reflexivity.
  - red; lia.
  - red; lia.
Defined.

(** End to end: a reversed range is accepted without any diagnostic. *)
Lemma Parse_reversed_range :
  Parser.run "5-1" = Some ([(5, 1)], true, []).
Proof. reflexivity. Qed.

(** * The octet set *)

(** C3: on the one-element list [{255,255}] the builder returns the
    all-bits-set constant, which tests true on all 256 bytes; on every
    other list of intervals it starts from the all-zero array and sets
    the bits of each interval, so that a byte tests true exactly when it
    lies in some interval [low <= v <= high] (an interval with
    [low > high] contributes nothing). *)
Theorem New_builds_the_octet_set :
  (Bitsvector.New [(255, 255)] = Bitsvector.AllSet
   /\ forall v, ParserSpec.byte_range v ->
                Bitsvector.Test (Bitsvector.New [(255, 255)]) v = true)
  /\ forall its : list Parser.Interval,
       its <> [(255, 255)] ->
       Forall ParserSpec.byte_interval its ->
       Bitsvector.New its
       = Bitsvector.set_intervals its Bitsvector.zero
       /\ forall v, ParserSpec.byte_range v ->
            (Bitsvector.Test (Bitsvector.New its) v = true
             <-> exists lo hi, In (lo, hi) its /\ lo <= v <= hi).
Proof.
  split.
  - split; [reflexivity|]. intros v Hv.
    change (Bitsvector.New [(255, 255)]) with Bitsvector.AllSet.
    now apply BitsvectorFacts.Test_AllSet.
  - intros its Hne Hits. split; [now apply BitsvectorFacts.New_other|].
    intros v Hv. rewrite BitsvectorFacts.Test_New_other by done.
    apply BitsvectorFacts.member_true.
Qed.

Lemma New_builds_the_octet_set_witness :
  Bitsvector.New [(1, 3); (9, 5)]
  = Bitsvector.set_intervals [(1, 3); (9, 5)] Bitsvector.zero
  /\ forall v, ParserSpec.byte_range v ->
       (Bitsvector.Test (Bitsvector.New [(1, 3); (9, 5)]) v = true
        <-> exists lo hi, In (lo, hi) [(1, 3); (9, 5)] /\ lo <= v <= hi).
Proof.
  apply (proj2 New_builds_the_octet_set).
  - discriminate.
  - repeat constructor; cbn; lia.
Defined.

(** What [Parse] returns on success are intervals between bytes. *)
Lemma run_byte_intervals s its errs :
  Parser.run s = Some (its, true, errs) ->
  Forall ParserSpec.byte_interval its.
Proof.
  intros H. destruct (ParserFacts.run_total s) as (its' & ok & errs' & E & Hok & _).
  rewrite H in E. injection E as <- <- <-. now apply Hok.
Qed.

(** C2, evaluated on the code: the octet expression 255 parses to the
    single interval [{255,255}], byte 0 lies in no parsed interval, and
    yet the set built from it tests true on 0. *)
Lemma Test_true_outside_the_intervals :
  Parser.run "255" = Some ([(255, 255)], true, [])
  /\ ~ (exists lo hi, In (lo, hi) [(255, 255)] /\ lo <= 0 <= hi)
  /\ Bitsvector.Test (Bitsvector.New [(255, 255)]) 0 = true.
Proof.
  split; [reflexivity|]. split; [|reflexivity].
  intros (lo & hi & [[= <- <-]|[]] & Hr). lia.
Qed.

(** The same seen from a pattern: 255 as last octet matches an address
    ending in 7, where 254 and the list 255,255 (which goes through the
    general path of [New]) do not. *)
Lemma pattern_255_matches_other_bytes :
  (exists ie, Ipexpr.Parse "192.168.1.255" = Some (inr ie)
              /\ Ipexpr.Matches ie "192.168.1.7" = (true, None))
  /\ (exists ie, Ipexpr.Parse "192.168.1.254" = Some (inr ie)
                 /\ Ipexpr.Matches ie "192.168.1.7" = (false, None))
  /\ (exists ie, Ipexpr.Parse "192.168.1.255,255" = Some (inr ie)
                 /\ Ipexpr.Matches ie "192.168.1.7" = (false, None)
                 /\ Ipexpr.Matches ie "192.168.1.255" = (true, None)).
Proof.
  repeat split; eexists; (split; [vm_compute; reflexivity|]);
    repeat split; vm_compute; reflexivity.
Qed.

(** Away from the single interval [{255,255}], the set built from the
    intervals of an accepted octet expression follows them: it tests true
    on every byte lying in some parsed interval (this half holds for
    every accepted expression) and false on every byte lying in none. *)
Lemma Test_follows_the_parsed_intervals :
  forall (s : string) (its : list Parser.Interval) (errs : list string)
         (v : Z),
    Parser.run s = Some (its, true, errs) ->
    ParserSpec.byte_range v ->
    ((exists lo hi, In (lo, hi) its /\ lo <= v <= hi) ->
     Bitsvector.Test (Bitsvector.New its) v = true)
    /\ (its <> [(255, 255)] ->
        ~ (exists lo hi, In (lo, hi) its /\ lo <= v <= hi) ->
        Bitsvector.Test (Bitsvector.New its) v = false).
Proof.
  intros s its errs v Hrun Hv.
  pose proof (run_byte_intervals s its errs Hrun) as Hits.
  split.
  - intros Hin.
    destruct (list_eq_dec its [(255, 255)]) as [->|Hne].
    + change (Bitsvector.New [(255, 255)]) with Bitsvector.AllSet.
      now apply BitsvectorFacts.Test_AllSet.
    + rewrite BitsvectorFacts.Test_New_other by done.
      now apply BitsvectorFacts.member_true.
  - intros Hne Hout. rewrite BitsvectorFacts.Test_New_other by done.
    destruct (BitsvectorSpec.member its v) eqn:E; [|reflexivity].
    apply BitsvectorFacts.member_true in E. contradiction.
Qed.

(** * The pattern compiler *)

Lemma parseOctet_cases o :
  (parse_fails o
   /\ Ipexpr.parseOctet o = Some (Bitsvector.zero, Some (invalid_octet o)))
  \/ (~ parse_fails o /\ exists bv, Ipexpr.parseOctet o = Some (bv, None)).
Proof.
  unfold Ipexpr.parseOctet, parse_fails.
  destruct (ParserFacts.run_total o) as (its & ok & errs & E & _).
  rewrite E. destruct ok; cbn.
  - right. split; [|eauto]. intros (its' & errs' & [=]).
  - left. split; [eauto|reflexivity].
Qed.

(** The first component that the interval parser rejects ends the
    compilation with an error that names it. *)
Lemma parse_parts_fails parts : forall i ip,
  Exists parse_fails parts ->
  exists o, In o parts /\ parse_fails o
            /\ Ipexpr.parse_parts parts i ip = Some (inl (invalid_octet o)).
Proof.
  induction parts as [|o parts IH]; intros i ip Hex;
    [by apply Exists_nil in Hex|].
  cbn [Ipexpr.parse_parts].
  destruct (parseOctet_cases o) as [(Hf & ->)|(Hnf & bv & ->)]; cbn.
  - exists o. split; [by left|done].
  - apply Exists_cons in Hex as [Hf|Hex]; [contradiction|].
    destruct (IH (S i) {| Ipexpr.octets := <[i:=bv]> (Ipexpr.octets ip) |} Hex)
      as (o' & Hin & Hf' & ->).
    exists o'. split; [by right|done].
Qed.

(** Compilation of four components that all parse succeeds. *)
Lemma parse_parts_succeeds parts : forall i ip,
  Forall (fun o => ~ parse_fails o) parts ->
  exists ie, Ipexpr.parse_parts parts i ip = Some (inr ie).
Proof.
  induction parts as [|o parts IH]; intros i ip Hall; cbn [Ipexpr.parse_parts];
    [eauto|].
  apply Forall_cons in Hall as [Ho Hall].
  destruct (parseOctet_cases o) as [(Hf & _)|(_ & bv & ->)]; [contradiction|].
  cbn. now apply IH.
Qed.

(** C5: [Parse] splits the pattern on '.' and returns an error, never a
    compiled pattern, whenever the split does not give exactly four
    components (so for 192.168.1); and when there are four components
    and the interval parser rejects one of them, it returns an error
    naming a rejected component (the first one), as for 192.168.1.256,
    whose error names 256. *)
Theorem Parse_errors :
  (forall expr : string,
     List.length (Strings.Split expr ".") <> 4%nat ->
     Ipexpr.Parse expr
     = Some (inl (Errorf (String.append "invalid ip expression: " expr))))
  /\ Ipexpr.Parse "192.168.1"
     = Some (inl (Errorf "invalid ip expression: 192.168.1"))
  /\ (forall expr : string,
        List.length (Strings.Split expr ".") = 4%nat ->
        Exists parse_fails (Strings.Split expr ".") ->
        exists o, In o (Strings.Split expr ".") /\ parse_fails o
                  /\ Ipexpr.Parse expr = Some (inl (invalid_octet o)))
  /\ Ipexpr.Parse "192.168.1.256"
     = Some (inl (Errorf "invalid octet format in 256")).
Proof.
  split; [|split; [reflexivity|split; [|reflexivity]]].
  - intros expr Hlen. unfold Ipexpr.Parse.
    apply Nat.eqb_neq in Hlen. now rewrite Hlen.
  - intros expr Hlen Hex. unfold Ipexpr.Parse.
    rewrite Hlen. cbn [Nat.eqb negb]. now apply parse_parts_fails.
Qed.

Lemma Parse_errors_witness :
  Ipexpr.Parse "1.2.3.4.5"
  = Some (inl (Errorf "invalid ip expression: 1.2.3.4.5"))
  /\ exists o, In o (Strings.Split "1.2-.3.x" ".") /\ parse_fails o
               /\ Ipexpr.Parse "1.2-.3.x" = Some (inl (invalid_octet o)).
Proof.
  split.
  - apply (proj1 Parse_errors "1.2.3.4.5"). vm_compute. discriminate.
  - apply (proj1 (proj2 (proj2 Parse_errors)) "1.2-.3.x").
    + reflexivity.
    + apply Exists_cons_tl, Exists_cons_hd.
      eexists _, _. vm_compute. reflexivity.
Defined.

(** Compilation always returns, and it succeeds exactly on four
    components that the interval parser accepts. *)
Lemma Parse_succeeds expr :
  List.length (Strings.Split expr ".") = 4%nat ->
  Forall (fun o => ~ parse_fails o) (Strings.Split expr ".") ->
  exists ie, Ipexpr.Parse expr = Some (inr ie).
Proof.
  intros Hlen Hall. unfold Ipexpr.Parse. rewrite Hlen. cbn [Nat.eqb negb].
  now apply parse_parts_succeeds.
Qed.

(** * The matcher *)

(** C6: [Matches] returns an error exactly when the address is not four
    octet literals separated by '.', and the error is the same for every
    pattern; on a well-formed address it returns no error and, for a
    pattern whose four octet sets are [o0], [o1], [o2], [o3], the
    conjunction of the four membership tests, the decimal value of each
    component against the octet set of its position. *)
Theorem Matches_error_iff_malformed :
  forall (ie : Ipexpr.IPExpr) (s : string),
    (snd (Ipexpr.Matches ie s) <> None <-> IpSpec.well_formed s = false)
    /\ (forall ie', snd (Ipexpr.Matches ie' s) = snd (Ipexpr.Matches ie s))
    /\ (forall o0 o1 o2 o3 : list Z,
          Ipexpr.octets ie = [o0; o1; o2; o3] ->
          IpSpec.well_formed s = true ->
          exists a b c d,
            Strings.Split s "." = [a; b; c; d]
            /\ Ipexpr.Matches ie s
               = (Bitsvector.Test o0 (IpSpec.decimal_value a)
                  && Bitsvector.Test o1 (IpSpec.decimal_value b)
                  && Bitsvector.Test o2 (IpSpec.decimal_value c)
                  && Bitsvector.Test o3 (IpSpec.decimal_value d),
                  None)).
Proof.
  intros ie s. pose proof (IpFacts.Parse_spec s) as H.
  unfold Ipexpr.Matches.
  destruct (Strings.Split s ".") as [|a [|b [|c [|d [|x r]]]]] eqn:Hs;
    try (destruct H as [-> ->]; cbn;
         split; [split; [done|discriminate]|split; [done|discriminate]]).
  destruct (IpSpec.well_formed s).
  - rewrite H. cbn [snd Ipexpr.matches_from].
    split; [split; [done|discriminate]|]. split; [done|].
    intros o0 o1 o2 o3 Hoct _.
    exists a, b, c, d. split; [done|].
    unfold Ipexpr.octet_at. rewrite Hoct. cbn [lookup list_lookup default].
    repeat (destruct (Bitsvector.Test _ _); cbn; try reflexivity).
  - destruct H as [e ->]. cbn.
    split; [split; [done|discriminate]|split; [done|discriminate]].
Qed.

Lemma Matches_error_iff_malformed_witness :
  exists ie o0 o1 o2 o3,
    Ipexpr.Parse "192.168.1.1-3" = Some (inr ie)
    /\ Ipexpr.octets ie = [o0; o1; o2; o3]
    /\ snd (Ipexpr.Matches ie "192.168.1.abc") <> None
    /\ (exists a b c d,
          Strings.Split "192.168.1.2" "." = [a; b; c; d]
          /\ Ipexpr.Matches ie "192.168.1.2"
             = (Bitsvector.Test o0 (IpSpec.decimal_value a)
                && Bitsvector.Test o1 (IpSpec.decimal_value b)
                && Bitsvector.Test o2 (IpSpec.decimal_value c)
                && Bitsvector.Test o3 (IpSpec.decimal_value d),
                None))
    /\ Ipexpr.Matches ie "192.168.1.2" = (true, None)
    /\ Ipexpr.Matches ie "192.168.1.4" = (false, None).
Proof.
  eexists _, _, _, _, _. split; [vm_compute; reflexivity|].
  split; [reflexivity|]. split; [|split; [|split; vm_compute; reflexivity]].
  - match goal with
    | |- snd (Ipexpr.Matches ?ie _) <> None =>
        apply (proj1 (Matches_error_iff_malformed ie "192.168.1.abc"))
    end.
    reflexivity.
  - match goal with
    | |- context [Ipexpr.Matches ?ie _] =>
        apply (proj2 (proj2 (Matches_error_iff_malformed ie "192.168.1.2")))
    end; reflexivity.
Defined.

(** The end-to-end example of the matcher: the pattern 192.168.1.1-3
    matches 192.168.1.2 and not 192.168.1.4, and reports an error on the
    malformed address 192.168.1.abc. *)
Lemma Matches_example :
  exists ie,
    Ipexpr.Parse "192.168.1.1-3" = Some (inr ie)
    /\ Ipexpr.Matches ie "192.168.1.2" = (true, None)
    /\ Ipexpr.Matches ie "192.168.1.4" = (false, None)
    /\ Ipexpr.Matches ie "192.168.1.abc"
       = (false, Some (NumError "ParseUint" "abc" Strconv.ErrSyntax)).
Proof.
  eexists. split; [vm_compute; reflexivity|].
  repeat split; vm_compute; reflexivity.
Qed.

(** C10: the literal address parser accepts leading zeros.  Whenever the
    four components of the address are non-empty decimal digit strings
    with values of at most 255, parsing succeeds with the four decimal
    values; so 192.168.001.001 parses to the same address as 192.168.1.1
    and [Matches] treats the two alike, for every pattern. *)
Theorem Parse_accepts_leading_zeros :
  (forall (s a b c d : string),
     Strings.Split s "." = [a; b; c; d] ->
     Forall (fun o => o <> EmptyString /\ IpSpec.all_digits o = true
                      /\ IpSpec.decimal_value o <= 255) [a; b; c; d] ->
     Ip.Parse s
     = ([IpSpec.decimal_value a; IpSpec.decimal_value b;
         IpSpec.decimal_value c; IpSpec.decimal_value d], None))
  /\ Ip.Parse "192.168.001.001" = ([192; 168; 1; 1], None)
  /\ forall ie : Ipexpr.IPExpr,
       Ipexpr.Matches ie "192.168.001.001" = Ipexpr.Matches ie "192.168.1.1".
Proof.
  split; [|split; [reflexivity|intros ie; reflexivity]].
  intros s a b c d Hs Hall. pose proof (IpFacts.Parse_spec s) as H.
  rewrite Hs in H.
  assert (IpSpec.well_formed s = true) as Hwf.
  { unfold IpSpec.well_formed. rewrite Hs.
    assert (forall o, o <> EmptyString /\ IpSpec.all_digits o = true
                      /\ IpSpec.decimal_value o <= 255 ->
                      IpSpec.octet_literal o = true) as Hlit.
    { intros o (Hne & Hd & Hv). unfold IpSpec.octet_literal.
      apply String.eqb_neq in Hne. rewrite Hne, Hd. cbn.
      now apply Z.leb_le. }
    repeat match goal with
           | H : Forall _ (_ :: _) |- _ =>
               apply Forall_cons in H as [?%Hlit ?]
           end.
    repeat match goal with
           | H : IpSpec.octet_literal _ = true |- _ => rewrite H; clear H
           end.
    reflexivity. }
  now rewrite Hwf in H.
Qed.

Lemma Parse_accepts_leading_zeros_witness :
  Ip.Parse "010.0.00255.7"
  = ([IpSpec.decimal_value "010"; IpSpec.decimal_value "0";
      IpSpec.decimal_value "00255"; IpSpec.decimal_value "7"], None).
Proof.
  apply (proj1 Parse_accepts_leading_zeros "010.0.00255.7").
  - reflexivity.
  - repeat constructor; (discriminate || (vm_compute; discriminate)).
Defined.

(** * Further properties of the octet set *)
Module BitsvectorMore.

Import Parser Bitsvector ParserSpec ParserFacts BitsvectorSpec BitsvectorFacts.

Lemma byte_lt_pow2 a : byte_range a <-> 0 <= a < 2 ^ 8.
Proof. unfold byte_range. change (2 ^ 8) with 256. lia. Qed.

Lemma lor_byte a b : byte_range a -> byte_range b -> byte_range (Z.lor a b).
Proof.
  rewrite !byte_lt_pow2. intros [Ha Ha'] [Hb Hb'].
  split; [apply Z.lor_nonneg; lia|].
  destruct (Z.eq_dec (Z.lor a b) 0) as [->|Hne]; [lia|].
  assert (0 <= Z.lor a b) by (apply Z.lor_nonneg; lia).
  apply Z.log2_lt_pow2; [lia|]. rewrite Z.log2_lor by lia.
  apply Z.max_lub_lt.
  - destruct (Z.eq_dec a 0) as [->|]; [cbn; lia|apply Z.log2_lt_pow2; lia].
  - destruct (Z.eq_dec b 0) as [->|]; [cbn; lia|apply Z.log2_lt_pow2; lia].
Qed.

Lemma mask_byte n : byte_range (mask n).
Proof.
  rewrite mask_pow2. pose proof (Z.mod_pos_bound n 8 ltac:(lia)) as Hb.
  apply byte_lt_pow2. split; [apply Z.pow_nonneg; lia|].
  apply Z.pow_lt_mono_r; lia.
Qed.

Lemma at_byte o i : Forall byte_range o -> byte_range (at_ o i).
Proof.
  intros Ho. unfold at_. destruct (o !! Z.to_nat i) as [a|] eqn:E; cbn.
  - eapply Forall_lookup_1; eauto.
  - red; lia.
Qed.

Lemma set_wf o n : octet_bits_wf o -> octet_bits_wf (set o n).
Proof.
  intros [Hlen Ho]. split; [by rewrite length_set|].
  unfold set. apply Forall_insert; [done|].
  apply lor_byte; [by apply at_byte|apply mask_byte].
Qed.

Lemma set_range_wf fuel : forall i e o,
  octet_bits_wf o -> octet_bits_wf (set_range fuel i e o).
Proof.
  induction fuel as [|fuel IH]; intros i e o Ho; cbn [set_range]; [done|].
  destruct (i <=? e); [|done]. apply IH. by apply set_wf.
Qed.

Lemma set_intervals_wf its : forall o,
  octet_bits_wf o -> octet_bits_wf (set_intervals its o).
Proof.
  induction its as [|[lo hi] its IH]; intros o Ho; cbn [set_intervals];
    [done|].
  apply IH. by apply set_range_wf.
Qed.

Lemma replicate_wf c : byte_range c -> octet_bits_wf (replicate 32 c).
Proof.
  intros Hc. split; [apply length_replicate|]. by apply Forall_replicate.
Qed.

Lemma zero_wf : octet_bits_wf zero.
Proof. apply replicate_wf. red; lia. Qed.

Lemma AllSet_wf : octet_bits_wf AllSet.
Proof. apply replicate_wf. red; lia. Qed.

Lemma New_wf its : octet_bits_wf (New its).
Proof.
  assert (octet_bits_wf (set_intervals its zero)) as H
    by apply set_intervals_wf, zero_wf.
  unfold New. destruct its as [|[lo hi] [|it its]]; try done.
  destruct ((lo =? hi) && (lo =? 255)); [apply AllSet_wf|done].
Qed.

Lemma testbit_byte_high a k : byte_range a -> 8 <= k -> Z.testbit a k = false.
Proof.
  intros Ha Hk. apply byte_lt_pow2 in Ha as [Ha Ha'].
  destruct (Z.eq_dec a 0) as [->|Hne]; [apply Z.testbit_0_l|].
  apply Z.bits_above_log2; [done|].
  assert (Z.log2 a < 8) by (apply Z.log2_lt_pow2; lia). lia.
Qed.

(** The bit array is determined by the answers of [Test]. *)
Lemma Test_ext o1 o2 :
  octet_bits_wf o1 -> octet_bits_wf o2 ->
  (forall v, byte_range v -> Test o1 v = Test o2 v) -> o1 = o2.
Proof.
  intros [Hl1 Hb1] [Hl2 Hb2] HT. apply list_eq. intros i.
  destruct (Nat.lt_ge_cases i 32) as [Hi|Hi];
    [|rewrite !lookup_ge_None_2 by lia; done].
  destruct (lookup_lt_is_Some_2 o1 i ltac:(lia)) as [a Ea].
  destruct (lookup_lt_is_Some_2 o2 i ltac:(lia)) as [b Eb].
  rewrite Ea, Eb. f_equal.
  pose proof (Forall_lookup_1 _ _ _ _ Hb1 Ea) as Ha.
  pose proof (Forall_lookup_1 _ _ _ _ Hb2 Eb) as Hb.
  apply Z.bits_inj'. intros k Hk.
  destruct (Z.lt_ge_cases k 8) as [Hk8|Hk8];
    [|rewrite !testbit_byte_high by done; done].
  specialize (HT (8 * Z.of_nat i + k) ltac:(red; lia)).
  rewrite !Test_testbit in HT.
  replace ((8 * Z.of_nat i + k) / 8) with (Z.of_nat i) in HT
    by (apply Z.div_unique with k; lia).
  replace ((8 * Z.of_nat i + k) mod 8) with k in HT
    by (apply Z.mod_unique with (Z.of_nat i); lia).
  unfold at_ in HT. rewrite Nat2Z.id, Ea, Eb in HT. exact HT.
Qed.

Lemma member_ext its its' v :
  (forall it, In it its <-> In it its') -> member its v = member its' v.
Proof.
  intros H. unfold member.
  destruct (existsb (in_interval v) its) eqn:E1,
           (existsb (in_interval v) its') eqn:E2; try reflexivity.
  - apply existsb_exists in E1 as (it & Hin & Hit).
    assert (existsb (in_interval v) its' = true) as E
      by (apply existsb_exists; exists it; split; [by apply H|done]).
    congruence.
  - apply existsb_exists in E2 as (it & Hin & Hit).
    assert (existsb (in_interval v) its = true) as E
      by (apply existsb_exists; exists it; split; [by apply H|done]).
    congruence.
Qed.

End BitsvectorMore.

(** X1: setting a bit and testing: after [set o n], [Test] answers true
    on [n] and what it answered before on every other byte. *)
Theorem Test_after_set :
  forall (o : list Z) (n v : Z),
    octet_bits_wf o -> ParserSpec.byte_range n -> ParserSpec.byte_range v ->
    Bitsvector.Test (Bitsvector.set o n) v
    = if v =? n then true else Bitsvector.Test o v.
Proof.
  intros o n v [Hlen _] Hn Hv. rewrite BitsvectorFacts.Test_set by done.
  destruct (v =? n); reflexivity.
Qed.

Lemma Test_after_set_witness :
  Bitsvector.Test (Bitsvector.set Bitsvector.zero 77) 77
  = if 77 =? 77 then true else Bitsvector.Test Bitsvector.zero 77.
Proof.
  apply Test_after_set.
  - apply BitsvectorMore.zero_wf.
  - red; lia.
  - red; lia.
Defined.

(** X3: the bit array is canonical: two lists of byte intervals on which
    [Test] gives the same answers for all 256 bytes are compiled by [New]
    to the same 32-byte array. *)
Theorem New_canonical :
  forall its its' : list Parser.Interval,
    (forall v, ParserSpec.byte_range v ->
               Bitsvector.Test (Bitsvector.New its) v
               = Bitsvector.Test (Bitsvector.New its') v) ->
    Bitsvector.New its = Bitsvector.New its'.
Proof.
  intros its its' H.
  apply BitsvectorMore.Test_ext; [apply BitsvectorMore.New_wf..|exact H].
Qed.

(** X4: apart from the sentinel list, the compiled set depends only on
    which intervals occur in the list, not on their order or
    multiplicity. *)
Theorem New_order_and_duplicates :
  forall its its' : list Parser.Interval,
    its <> [(255, 255)] -> its' <> [(255, 255)] ->
    Forall ParserSpec.byte_interval its ->
    Forall ParserSpec.byte_interval its' ->
    (forall it, In it its <-> In it its') ->
    Bitsvector.New its = Bitsvector.New its'.
Proof.
  intros its its' Hne Hne' Hb Hb' Hin.
  apply BitsvectorMore.Test_ext; [apply BitsvectorMore.New_wf..|].
  intros v Hv. rewrite !BitsvectorFacts.Test_New_other by done.
  by apply BitsvectorMore.member_ext.
Qed.

Lemma New_order_and_duplicates_witness :
  Bitsvector.New [(1, 5); (3, 8); (1, 5)] = Bitsvector.New [(3, 8); (1, 5)].
Proof.
  apply New_order_and_duplicates.
  - discriminate.
  - discriminate.
  - repeat constructor; cbn; lia.
  - repeat constructor; cbn; lia.
  - intros it. cbn. tauto.
Defined.

(** X5: the sentinel is the only list of byte intervals on which the
    compiled set differs from the union of the intervals: [Test] agrees
    with interval membership on all bytes exactly when the list is not
    [{255,255}]. *)
Theorem New_is_union_iff_not_sentinel :
  forall its : list Parser.Interval,
    Forall ParserSpec.byte_interval its ->
    (forall v, ParserSpec.byte_range v ->
               Bitsvector.Test (Bitsvector.New its) v
               = BitsvectorSpec.member its v)
    <-> its <> [(255, 255)].
Proof.
  intros its Hb. split.
  - intros H ->. specialize (H 0 ltac:(red; lia)). discriminate.
  - intros Hne v Hv. by apply BitsvectorFacts.Test_New_other.
Qed.

Lemma New_is_union_iff_not_sentinel_witness :
  (forall v, ParserSpec.byte_range v ->
             Bitsvector.Test (Bitsvector.New [(255, 255); (255, 255)]) v
             = BitsvectorSpec.member [(255, 255); (255, 255)] v)
  <-> [(255, 255); (255, 255)] <> [(255, 255)].
Proof.
  apply New_is_union_iff_not_sentinel. repeat constructor; cbn; lia.
Defined.

(** X6: a list of byte intervals that contains the wildcard interval
    [{0,255}] compiles to the all-bits-set constant, whatever else it
    contains. *)
Theorem New_with_wildcard :
  forall its : list Parser.Interval,
    Forall ParserSpec.byte_interval its -> In (0, 255) its ->
    Bitsvector.New its = Bitsvector.AllSet.
Proof.
  intros its Hb Hin.
  apply BitsvectorMore.Test_ext;
    [apply BitsvectorMore.New_wf|apply BitsvectorMore.AllSet_wf|].
  intros v Hv. rewrite BitsvectorFacts.Test_AllSet by done.
  rewrite BitsvectorFacts.Test_New_other; try done.
  - apply BitsvectorFacts.member_true. exists 0, 255. split; [done|apply Hv].
  - intros ->. destruct Hin as [[=]|[]].
Qed.

Lemma New_with_wildcard_witness :
  Bitsvector.New [(7, 7); (0, 255); (200, 100)] = Bitsvector.AllSet.
Proof.
  apply New_with_wildcard.
  - repeat constructor; cbn; lia.
  - right. left. reflexivity.
Defined.

Lemma New_canonical_witness :
  Bitsvector.New [(1, 5); (3, 8)] = Bitsvector.New [(1, 8)].
Proof.
  apply New_canonical. intros v Hv.
  rewrite !BitsvectorFacts.Test_New_other;
    try (discriminate || (repeat constructor; cbn; lia) || exact Hv).
  unfold BitsvectorSpec.member, BitsvectorSpec.in_interval. cbn.
  destruct (Z.leb_spec 1 v), (Z.leb_spec v 5), (Z.leb_spec 3 v),
    (Z.leb_spec v 8); cbn; try reflexivity; lia.
Defined.

(** * Further properties of the interval parser *)
Module ParserMore.

Import Parser LexerSpec LexerFacts ParserSpec ParserFacts.
Local Open Scope parser_scope.
Local Open Scope list_scope.

Local Arguments nextToken : simpl never.
Local Arguments parseNumber : simpl never.
Local Arguments parseTerm : simpl never.
Local Arguments expectCurrIs : simpl never.
Local Arguments parseExpr_loop : simpl never.

(** The diagnostics of [p'] are those of [p] followed by [more]. *)
Local Abbreviation appended p p' more := (errors p' = errors p ++ more).

Lemma nextToken_same p u p' :
  nextToken p = Some (u, p') ->
  errors p' = errors p /\ currToken p' = peekToken p.
Proof.
  unfold nextToken. destruct (Lexer.NextToken (l p)) as [[t l']|]; [|done].
  intros [= <- <-]. done.
Qed.

Local Ltac one_error :=
  intros [= <- <- <-]; eexists [_]; cbn;
  split; [reflexivity|split; [discriminate|discriminate]].

Lemma parseNumber_errors p n ok p' :
  parseNumber p = Some ((n, ok), p') ->
  exists more, appended p p' more
               /\ (ok = false -> more <> []) /\ (ok = true -> more = []).
Proof.
  unfold parseNumber, bind, currTokenIs, get, ret. cbn.
  destruct (String.eqb (Token.Typ (currToken p)) Token.NUMBER); cbn;
    [|one_error].
  destruct (Strconv.Atoi _) as [e|num]; cbn; [one_error|].
  destruct ((num <? 0) || (255 <? num)); cbn; [one_error|].
  destruct (nextToken p) as [[[] p1]|] eqn:E; [|done].
  intros [= <- <- <-]. apply nextToken_same in E as [E _].
  exists []. rewrite app_nil_r. done.
Qed.

Lemma parseTerm_errors p it ok p' :
  parseTerm p = Some ((it, ok), p') ->
  exists more, appended p p' more
               /\ (ok = false -> more <> []) /\ (ok = true -> more = []).
Proof.
  unfold parseTerm, bind, currTokenIs, get, ret. cbn.
  destruct (String.eqb (Token.Typ (currToken p)) Token.ASTERISK); cbn.
  { destruct (nextToken p) as [[[] p1]|] eqn:E; [|done].
    intros [= <- <- <-]. apply nextToken_same in E as [E _].
    exists []. rewrite app_nil_r. done. }
  destruct (parseNumber p) as [[[n1 ok1] p1]|] eqn:E1; [|done].
  apply parseNumber_errors in E1 as (m1 & A1 & F1 & T1).
  destruct ok1; cbn.
  2:{ intros [= <- <- <-]. eexists (m1 ++ [_]). cbn.
      rewrite A1, <- app_assoc. split; [reflexivity|].
      split; [intros _; by destruct m1|discriminate]. }
  rewrite (T1 eq_refl), app_nil_r in A1.
  destruct (String.eqb (Token.Typ (currToken p1)) Token.DASH); cbn.
  2:{ intros [= <- <- <-]. exists []. rewrite app_nil_r. done. }
  destruct (nextToken p1) as [[[] p2]|] eqn:E2; [|done].
  apply nextToken_same in E2 as [E2 _].
  destruct (parseNumber p2) as [[[n2 ok2] p3]|] eqn:E3; [|done].
  apply parseNumber_errors in E3 as (m3 & A3 & F3 & T3).
  rewrite E2, A1 in A3.
  destruct ok2; cbn.
  - intros [= <- <- <-]. exists m3. split; [done|]. split; [done|].
    intros _. by apply T3.
  - intros [= <- <- <-]. eexists (m3 ++ [_]). cbn.
    rewrite A3, <- app_assoc. split; [reflexivity|].
    split; [intros _; by destruct m3|discriminate].
Qed.

Lemma expectCurrIs_errors t p b p' :
  expectCurrIs t p = Some (b, p') -> exists more, appended p p' more.
Proof.
  unfold expectCurrIs, bind, currTokenIs, get, ret. cbn.
  destruct (String.eqb (Token.Typ (currToken p)) t); cbn.
  - destruct (nextToken p) as [[[] p1]|] eqn:E; [|done].
    intros [= <- <-]. apply nextToken_same in E as [E _].
    exists []. rewrite app_nil_r. done.
  - intros [= <- <-]. eexists [_]. reflexivity.
Qed.

(** When the loop returns, either it failed and left a diagnostic, or it
    succeeded with the current token at [EOF]. *)
Lemma parseExpr_loop_result fuel : forall its p its' ok p',
  parseExpr_loop fuel its p = Some ((its', ok), p') ->
  exists more, appended p p' more
               /\ (ok = false -> more <> [])
               /\ (ok = true -> Token.Typ (currToken p') = Token.EOF).
Proof.
  induction fuel as [|fuel IH]; intros its p its' ok p';
    unfold parseExpr_loop; fold parseExpr_loop;
    unfold bind, currTokenIs, peekTokenIs, get, ret; cbn;
    (destruct (String.eqb_spec (Token.Typ (currToken p)) Token.EOF)
       as [E|E]; cbn;
     [intros [= <- <- <-]; exists []; rewrite app_nil_r; done|]);
    [done|].
  destruct (parseTerm p) as [[[it ok1] p1]|] eqn:E1; [|done].
  apply parseTerm_errors in E1 as (m1 & A1 & F1 & _).
  destruct ok1; cbn.
  2:{ intros [= <- <- <-]. exists m1. split; [done|]. split; [|done].
      intros _. by apply F1. }
  destruct (String.eqb (Token.Typ (peekToken p1)) Token.EOF); cbn.
  - intros H. apply IH in H as (m2 & A2 & F2 & T2).
    exists (m1 ++ m2). rewrite A2, A1, <- app_assoc.
    split; [done|]. split; [|done].
    intros Hok. specialize (F2 Hok). by destruct m1, m2.
  - destruct (expectCurrIs Token.COMMA p1) as [[b p2]|] eqn:E2; [|done].
    apply expectCurrIs_errors in E2 as (m2 & A2).
    intros H. apply IH in H as (m3 & A3 & F3 & T3).
    exists (m1 ++ m2 ++ m3). rewrite A3, A2, A1, <- !app_assoc.
    split; [done|]. split; [|done].
    intros Hok. specialize (F3 Hok). by destruct m1, m2, m3.
Qed.

Lemma Parse_result p its ok p' :
  Parse p = Some ((its, ok), p') ->
  exists more, appended p p' more
               /\ (ok = false -> more <> [])
               /\ (ok = true -> Token.Typ (currToken p') = Token.EOF).
Proof.
  unfold Parse, parseExpr, bind, get, ret. cbn.
  destruct (parseExpr_loop _ [] p) as [[[its1 ok1] p1]|] eqn:E1; [|done].
  apply parseExpr_loop_result in E1 as (m1 & A1 & F1 & T1).
  destruct ok1; cbn.
  2:{ intros [= <- <- <-]. exists m1. split; [done|]. split; [|done].
      intros _. by apply F1. }
  destruct its1 as [|it its1]; cbn.
  - intros [= <- <- <-]. eexists (m1 ++ [_]). cbn.
    rewrite A1, <- app_assoc. split; [reflexivity|].
    split; [intros _; by destruct m1|discriminate].
  - intros [= <- <- <-]. exists m1. split; [done|]. split; [done|].
    intros _. by apply T1.
Qed.

End ParserMore.

(** X7: parsing terminates on every source, with a definite result:
    either success with a non-empty list of intervals between bytes, or
    failure with the empty list. *)
Theorem Parse_terminates :
  forall s : string,
  exists its ok errs,
    Parser.run s = Some (its, ok, errs)
    /\ (ok = true -> its <> [] /\ Forall ParserSpec.byte_interval its)
    /\ (ok = false -> its = []).
Proof.
  intros s.
  destruct (ParserFacts.run_total s) as (its & ok & errs & E & Hok & Hko).
  exists its, ok, errs. split; [done|]. split; [|done].
  intros Ht. destruct (Hok Ht). done.
Qed.

(** X8: a successful [Parse] has read its input up to an [EOF] token: in
    the parser it leaves behind, the current token is [EOF]. *)
Theorem Parse_success_stops_at_EOF :
  forall (p p' : Parser.Parser) (its : list Parser.Interval),
    Parser.Parse p = Some ((its, true), p') ->
    Token.Typ (Parser.currToken p') = Token.EOF.
Proof.
  intros p p' its H.
  apply ParserMore.Parse_result in H as (more & _ & _ & T). by apply T.
Qed.

Lemma Parse_success_stops_at_EOF_witness :
  exists its p',
    Parser.Parse (parser_of "1-5, 10") = Some ((its, true), p')
    /\ Token.Typ (Parser.currToken p') = Token.EOF.
Proof.
  eexists _, _. split; [vm_compute; reflexivity|].
  eapply (Parse_success_stops_at_EOF (parser_of "1-5, 10")).
  vm_compute. reflexivity.
Defined.

(** X9: [Parse] only appends to the diagnostics, and a failing [Parse]
    appends at least one; a fresh parser has none, so a failed parse of a
    source always leaves a non-empty list of diagnostics. *)
Theorem Parse_failure_leaves_a_diagnostic :
  (forall (p p' : Parser.Parser) (its : list Parser.Interval) (ok : bool),
     Parser.Parse p = Some ((its, ok), p') ->
     exists more,
       Parser.errors p' = (Parser.errors p ++ more)%list
       /\ (ok = false -> more <> []))
  /\ forall (s : string) (its : list Parser.Interval) (errs : list string),
       Parser.run s = Some (its, false, errs) -> errs <> [].
Proof.
  split.
  - intros p p' its ok H.
    apply ParserMore.Parse_result in H as (more & A & F & _). eauto.
  - intros s its errs. unfold Parser.run.
    destruct (ParserFacts.New_ok s) as (p & -> & _ & He). cbn.
    destruct (Parser.Parse p) as [[[its' ok] p']|] eqn:E; [|done]. cbn.
    intros [= -> -> <-].
    apply ParserMore.Parse_result in E as (more & A & F & _).
    unfold Parser.Errors. rewrite A, He. cbn. by apply F.
Qed.

Lemma Parse_failure_leaves_a_diagnostic_witness :
  (exists more,
     Parser.errors
       (snd (default ([], false, parser_of "1-") (Parser.Parse (parser_of "1-"))))
     = (Parser.errors (parser_of "1-") ++ more)%list
     /\ (false = false -> more <> []))
  /\ ["expected current token type is NUMBER, found EOF";
      "numeric value  is not valid"] <> [].
Proof.
  split.
  - eapply (proj1 Parse_failure_leaves_a_diagnostic (parser_of "1-")).
    vm_compute. reflexivity.
  - eapply (proj2 Parse_failure_leaves_a_diagnostic "1-").
    vm_compute. reflexivity.
Defined.

(** * Further properties of the tokenizer *)
Module LexerMore.

Import Lexer LexerSpec LexerFacts.
Local Open Scope list_scope.

(** Within the bytes the lexer has still to read there is an [EOF]. *)
Lemma reach_EOF n : forall l,
  Inv l -> (remaining l <= n)%nat ->
  exists k ts t,
    (k <= remaining l)%nat
    /\ tokens (S k) l = Some (ts ++ [t])
    /\ length ts = k
    /\ Forall (fun t => Token.Typ t <> Token.EOF) ts
    /\ Token.Typ t = Token.EOF.
Proof.
  induction n as [|n IH]; intros l HI Hn;
    destruct (NextToken_total l HI) as (t & l' & Hn');
    pose proof (NextToken_spec l t l' HI Hn') as (HI' & _ & Hle & Hlt);
    (destruct (String.eqb_spec (Token.Typ t) Token.EOF) as [E|E];
     [exists 0%nat, [], t; cbn [tokens]; rewrite Hn'; cbn;
      repeat split; (done || lia)|]).
  - specialize (Hlt E). lia.
  - specialize (Hlt E).
    destruct (IH l' HI' ltac:(lia)) as (k & ts & t' & Hk & Ht & Hl & Hf & He).
    exists (S k), (t :: ts), t'.
    split; [lia|]. split.
    + change (tokens (S (S k)) l)
        with ('(t0, l0) ← NextToken l; ts0 ← tokens (S k) l0; Some (t0 :: ts0)).
      rewrite Hn'. cbn [mbind option_bind]. rewrite Ht. reflexivity.
    + cbn. split; [lia|]. split; [by constructor|done].
Qed.



End LexerMore.

(** X10: [NextToken] returns on every lexer that [New] and earlier calls
    can produce, keeps the lexer well-formed, never moves backwards, and
    consumes at least one byte of the input for every token other than
    [EOF]. *)
Theorem NextToken_returns_and_advances :
  forall l : Lexer.Lexer,
    LexerSpec.Inv l ->
    exists t l',
      Lexer.NextToken l = Some (t, l')
      /\ LexerSpec.Inv l'
      /\ Lexer.input l' = Lexer.input l
      /\ (LexerSpec.remaining l' <= LexerSpec.remaining l)%nat
      /\ (Token.Typ t <> Token.EOF ->
          (LexerSpec.remaining l' < LexerSpec.remaining l)%nat).
Proof.
  intros l HI. destruct (LexerFacts.NextToken_total l HI) as (t & l' & H).
  exists t, l'. split; [done|]. by apply LexerFacts.NextToken_spec.
Qed.

Lemma NextToken_returns_and_advances_witness :
  exists t l',
    Lexer.NextToken (Lexer.New "12,3") = Some (t, l')
    /\ LexerSpec.Inv l'
    /\ Lexer.input l' = Lexer.input (Lexer.New "12,3")
    /\ (LexerSpec.remaining l' <= LexerSpec.remaining (Lexer.New "12,3"))%nat
    /\ (Token.Typ t <> Token.EOF ->
        (LexerSpec.remaining l' < LexerSpec.remaining (Lexer.New "12,3"))%nat).
Proof.
  apply NextToken_returns_and_advances.
  split; [reflexivity|]. intros _. vm_compute. lia.
Defined.

(** X11: the token stream of every source reaches [EOF]: there are [k]
    tokens other than [EOF], with [k] at most the length of the source,
    and the next token is [EOF]. *)
Theorem tokens_reach_EOF :
  forall s : string,
  exists k ts t,
    (k <= String.length s)%nat
    /\ LexerSpec.tokens (S k) (Lexer.New s) = Some (ts ++ [t])%list
    /\ length ts = k
    /\ Forall (fun t => Token.Typ t <> Token.EOF) ts
    /\ Token.Typ t = Token.EOF.
Proof.
  intros s.
  destruct (LexerMore.reach_EOF (String.length s) (Lexer.New s))
    as (k & ts & t & Hk & H); [apply LexerFacts.New_Inv| |].
  - unfold LexerSpec.remaining. cbn. lia.
  - exists k, ts, t. split; [|done].
    unfold LexerSpec.remaining in Hk. cbn in Hk. lia.
Qed.

(** X12: once the lexer stands at or past the end of its source, every
    call returns [EOF] with an empty literal, whatever the source (with
    or without [nul] bytes). *)
Theorem EOF_forever_at_the_end :
  forall (s : string) (k n : nat) (l : Lexer.Lexer),
    LexerSpec.after k (Lexer.New s) = Some l ->
    (String.length s <= Lexer.position l)%nat ->
    LexerSpec.tokens n l = Some (replicate n LexerSpec.eof).
Proof.
  intros s k n l Hk Hle.
  destruct (LexerFacts.after_keeps k (Lexer.New s) l) as (HI & _ & Hin);
    [apply LexerFacts.New_Inv|apply LexerFacts.readChar_Sync|done|].
  apply LexerFacts.tokens_at_end; [done|]. by rewrite Hin.
Qed.

Lemma EOF_forever_at_the_end_witness :
  exists l,
    LexerSpec.after 1 (Lexer.New (String Lexer.nul "7")) = Some l
    /\ ~ (String.length (String Lexer.nul "7") <= Lexer.position l)%nat
    /\ exists l2,
         LexerSpec.after 2 (Lexer.New (String Lexer.nul "7")) = Some l2
         /\ LexerSpec.tokens 3 l2 = Some (replicate 3 LexerSpec.eof).
Proof.
  eexists. split; [vm_compute; reflexivity|]. split; [vm_compute; lia|].
  eexists. split; [vm_compute; reflexivity|].
  eapply (EOF_forever_at_the_end (String Lexer.nul "7") 2).
  - vm_compute. reflexivity.
  - vm_compute. lia.
Defined.

Lemma NextToken_EOF_idempotent_without_nul_witness :
  exists l t l',
    LexerSpec.after 3 (Lexer.New "1,2") = Some l
    /\ Lexer.NextToken l = Some (t, l')
    /\ LexerSpec.tokens 2 l' = Some (replicate 2 LexerSpec.eof).
Proof.
  eexists _, _, _. split; [vm_compute; reflexivity|].
  split; [vm_compute; reflexivity|].
  eapply (NextToken_EOF_idempotent_without_nul "1,2" 3).
  - intros n. destruct n as [|[|[|n]]]; cbn; discriminate.
  - vm_compute. reflexivity.
  - vm_compute. reflexivity.
  - reflexivity.
Defined.

#[local] Arguments Lexer.readNumber : simpl never.



(** * Further properties of the address parser and the pattern compiler *)
Module IpexprMore.

Import ParserSpec ParserFacts IpSpec IpFacts.
Local Open Scope list_scope.

(** On a digit string the digit loop can only fail by range. *)
Lemma parse_digits_all_digits maxVal s : forall n,
  all_digits s = true ->
  Strconv.parse_digits maxVal n s = inl Strconv.ErrRange
  \/ exists v, Strconv.parse_digits maxVal n s = inr v.
Proof.
  induction s as [|c s IH]; intros n Hd; cbn in *; [eauto|].
  apply andb_true_iff in Hd as [-> Hd].
  destruct (maxVal <? n * 10 + Strconv.digit_of c); [by left|by apply IH].
Qed.

(** The first component that is not an octet literal fails the address
    with the error of [ParseUint] on it. *)
Lemma parse_octets_bad pre : forall o post i acc,
  Forall (fun x => octet_literal x = true) pre ->
  octet_literal o = false ->
  exists e, Strconv.ParseUint8 o = inl e
            /\ Ip.parse_octets (pre ++ o :: post) i acc
               = inl (NumError "ParseUint" o e).
Proof.
  induction pre as [|x pre IH]; intros o post i acc Hpre Ho; cbn.
  - destruct (ParseUint8_cases o) as [(E & _)|(_ & e & E)]; [congruence|].
    rewrite E. eauto.
  - apply Forall_cons in Hpre as [Hx Hpre].
    destruct (ParseUint8_cases x) as [(_ & E & _)|(E & _)]; [|congruence].
    rewrite E. by apply IH.
Qed.

Lemma parseOctet_either o :
  (parse_fails o
   /\ Ipexpr.parseOctet o = Some (Bitsvector.zero, Some (invalid_octet o)))
  \/ (~ parse_fails o
      /\ Ipexpr.parseOctet o = Some (compile_octet o, None)).
Proof.
  unfold Ipexpr.parseOctet, parse_fails, compile_octet.
  destruct (run_total o) as (its & ok & errs & E & _).
  rewrite E. destruct ok; cbn.
  - right. split; [|done]. intros (its' & errs' & [=]).
  - left. split; [eauto|reflexivity].
Qed.

(** Compilation of four components. *)
Lemma parse_parts_four p0 p1 p2 p3 :
  (Forall (fun o => ~ parse_fails o) [p0; p1; p2; p3]
   /\ Ipexpr.parse_parts [p0; p1; p2; p3] 0 Ipexpr.zeroIPExpr
      = Some (inr {| Ipexpr.octets := map compile_octet [p0; p1; p2; p3] |}))
  \/ (Exists parse_fails [p0; p1; p2; p3]
      /\ exists e, Ipexpr.parse_parts [p0; p1; p2; p3] 0 Ipexpr.zeroIPExpr
                   = Some (inl e)).
Proof.
  cbn [Ipexpr.parse_parts].
  destruct (parseOctet_either p0) as [(F0 & ->)|(F0 & ->)]; cbn;
    [right; split; [by constructor|eauto]|].
  destruct (parseOctet_either p1) as [(F1 & ->)|(F1 & ->)]; cbn;
    [right; split; [by do 1 constructor 2; constructor|eauto]|].
  destruct (parseOctet_either p2) as [(F2 & ->)|(F2 & ->)]; cbn;
    [right; split; [by do 2 constructor 2; constructor|eauto]|].
  destruct (parseOctet_either p3) as [(F3 & ->)|(F3 & ->)]; cbn;
    [right; split; [by do 3 constructor 2; constructor|eauto]|].
  left. split; [by repeat constructor|reflexivity].
Qed.

Lemma not_both l :
  Forall (fun o => ~ parse_fails o) l -> Exists parse_fails l -> False.
Proof.
  intros Hall Hex. apply Exists_exists in Hex as (o & Hin & Hf).
  rewrite Forall_forall in Hall. by apply (Hall o).
Qed.

(** What a compiled pattern is. *)
Lemma Parse_inr expr ie :
  Ipexpr.Parse expr = Some (inr ie) <->
  exists p0 p1 p2 p3,
    Strings.Split expr "." = [p0; p1; p2; p3]
    /\ Forall (fun o => ~ parse_fails o) [p0; p1; p2; p3]
    /\ ie = {| Ipexpr.octets := map compile_octet [p0; p1; p2; p3] |}.
Proof.
  unfold Ipexpr.Parse.
  destruct (Strings.Split expr ".") as [|p0 [|p1 [|p2 [|p3 [|x r]]]]] eqn:Hs;
    try (split; [discriminate|intros (?&?&?&?&[=]&_)]).
  cbn [List.length Nat.eqb negb].
  destruct (parse_parts_four p0 p1 p2 p3) as [(Hall & ->)|(Hex & e & ->)].
  - split.
    + intros [= <-]. by exists p0, p1, p2, p3.
    + intros (? & ? & ? & ? & [= <- <- <- <-] & _ & ->). done.
  - split; [discriminate|].
    intros (? & ? & ? & ? & [= <- <- <- <-] & Hall & _).
    destruct (not_both _ Hall Hex).
Qed.

Lemma Parse_total expr : exists r, Ipexpr.Parse expr = Some r.
Proof.
  unfold Ipexpr.Parse.
  destruct (Strings.Split expr ".") as [|p0 [|p1 [|p2 [|p3 [|x r]]]]];
    try (cbn; eauto; fail).
  cbn [List.length Nat.eqb negb].
  destruct (parse_parts_four p0 p1 p2 p3) as [(_ & ->)|(_ & e & ->)]; eauto.
Qed.

Lemma matches_four ie a b c d :
  Ipexpr.matches_from ie 0 [a; b; c; d]
  = Bitsvector.Test (Ipexpr.octet_at ie 0) a
    && Bitsvector.Test (Ipexpr.octet_at ie 1) b
    && Bitsvector.Test (Ipexpr.octet_at ie 2) c
    && Bitsvector.Test (Ipexpr.octet_at ie 3) d.
Proof.
  cbn [Ipexpr.matches_from].
  repeat (destruct (Bitsvector.Test _ _); cbn; try reflexivity).
Qed.

Lemma well_formed_values s :
  well_formed s = true ->
  exists a b c d,
    Strings.Split s "." = [a; b; c; d]
    /\ Forall byte_range [decimal_value a; decimal_value b;
                          decimal_value c; decimal_value d]
    /\ Ip.Parse s = ([decimal_value a; decimal_value b;
                      decimal_value c; decimal_value d], None).
Proof.
  intros Hwf. pose proof (Parse_spec s) as H. unfold well_formed in Hwf.
  destruct (Strings.Split s ".") as [|a [|b [|c [|d [|x r]]]]] eqn:Hs;
    try discriminate.
  assert (well_formed s = true) as Hwf'
    by (unfold well_formed; by rewrite Hs).
  rewrite Hwf' in H. exists a, b, c, d. split; [done|]. split; [|done].
  do 3 (apply andb_true_iff in Hwf as [Hwf ?]).
  repeat (apply List.Forall_cons); try apply List.Forall_nil;
    match goal with
    | |- byte_range (decimal_value ?x) =>
        destruct (ParseUint8_cases x) as [(_ & _ & ?)|(? & _)];
        [done|congruence]
    end.
Qed.

End IpexprMore.

(** X16: which error [ip.Parse] returns.  With a component count other
    than four it is the error "invalid ip: " followed by the address;
    with four components it is the [ParseUint] error on the first one
    that is not an octet literal: a syntax error when that component is
    empty, a range error when it is a non-empty digit string. *)
Theorem ip_Parse_error :
  (forall s : string,
     List.length (Strings.Split s ".") <> 4%nat ->
     Ip.Parse s
     = (Ip.IPv4zero, Some (Errorf (String.append "invalid ip: " s))))
  /\ forall (s : string) (pre : list string) (o : string)
            (post : list string),
       Strings.Split s "." = (pre ++ o :: post)%list ->
       List.length (pre ++ o :: post)%list = 4%nat ->
       Forall (fun x => IpSpec.octet_literal x = true) pre ->
       IpSpec.octet_literal o = false ->
       exists e,
         Ip.Parse s = (Ip.IPv4zero, Some (NumError "ParseUint" o e))
         /\ (o = EmptyString -> e = Strconv.ErrSyntax)
         /\ (o <> EmptyString -> IpSpec.all_digits o = true ->
             e = Strconv.ErrRange).
Proof.
  split.
  - intros s Hlen. unfold Ip.Parse. apply Nat.eqb_neq in Hlen.
    now rewrite Hlen.
  - intros s pre o post Hs Hlen Hpre Ho. unfold Ip.Parse.
    rewrite Hs, Hlen. cbn [Nat.eqb negb].
    destruct (IpexprMore.parse_octets_bad pre o post 0%nat [0; 0; 0; 0]
                Hpre Ho) as (e & He & ->).
    exists e. split; [done|]. split.
    + intros ->. cbn in He. congruence.
    + intros Hne Hd. destruct o as [|c o]; [done|].
      unfold Strconv.ParseUint8 in He.
      destruct (IpexprMore.parse_digits_all_digits 255 (String c o) 0 Hd)
        as [E|[v E]]; congruence.
Qed.

Lemma ip_Parse_error_witness :
  Ip.Parse "1.2.3"
  = (Ip.IPv4zero, Some (Errorf (String.append "invalid ip: " "1.2.3")))
  /\ exists e,
       Ip.Parse "10.0300.x.1"
       = (Ip.IPv4zero, Some (NumError "ParseUint" "0300" e))
       /\ ("0300" = EmptyString -> e = Strconv.ErrSyntax)
       /\ ("0300" <> EmptyString -> IpSpec.all_digits "0300" = true ->
           e = Strconv.ErrRange).
Proof.
  split.
  - apply (proj1 ip_Parse_error). vm_compute. discriminate.
  - apply (proj2 ip_Parse_error "10.0300.x.1" ["10"] "0300" ["x"; "1"]).
    + reflexivity.
    + reflexivity.
    + repeat constructor.
    + reflexivity.
Defined.

(** X17: compilation always returns, and it returns a pattern exactly
    when the expression has four components that the interval parser
    accepts; the pattern then holds, position by position, the octet set
    of each component. *)
Theorem Parse_compiles_each_component :
  (forall expr : string, exists r, Ipexpr.Parse expr = Some r)
  /\ forall (expr : string) (ie : Ipexpr.IPExpr),
       Ipexpr.Parse expr = Some (inr ie) <->
       exists p0 p1 p2 p3,
         Strings.Split expr "." = [p0; p1; p2; p3]
         /\ Forall (fun o => ~ parse_fails o) [p0; p1; p2; p3]
         /\ ie = {| Ipexpr.octets := map compile_octet [p0; p1; p2; p3] |}.
Proof.
  split; [apply IpexprMore.Parse_total|apply IpexprMore.Parse_inr].
Qed.

(** X18: compile, then match.  For a compiled pattern and a well-formed
    address, [Matches] is the conjunction over the four positions of the
    test of the address's decimal value against the octet set of the
    pattern's component at that position: no position looks at another
    position's component. *)
Theorem Matches_after_Parse :
  forall (expr addr : string) (ie : Ipexpr.IPExpr)
         (p0 p1 p2 p3 a b c d : string),
    Ipexpr.Parse expr = Some (inr ie) ->
    Strings.Split expr "." = [p0; p1; p2; p3] ->
    IpSpec.well_formed addr = true ->
    Strings.Split addr "." = [a; b; c; d] ->
    Ipexpr.Matches ie addr
    = (Bitsvector.Test (compile_octet p0) (IpSpec.decimal_value a)
       && Bitsvector.Test (compile_octet p1) (IpSpec.decimal_value b)
       && Bitsvector.Test (compile_octet p2) (IpSpec.decimal_value c)
       && Bitsvector.Test (compile_octet p3) (IpSpec.decimal_value d),
       None).
Proof.
  intros expr addr ie p0 p1 p2 p3 a b c d Hp Hs Hwf Ha.
  apply IpexprMore.Parse_inr in Hp
    as (q0 & q1 & q2 & q3 & Hq & _ & ->).
  rewrite Hs in Hq. injection Hq as <- <- <- <-.
  destruct (IpexprMore.well_formed_values addr Hwf)
    as (a' & b' & c' & d' & Ha' & _ & E).
  rewrite Ha in Ha'. injection Ha' as <- <- <- <-.
  unfold Ipexpr.Matches. rewrite E.
  rewrite IpexprMore.matches_four. reflexivity.
Qed.

Lemma Matches_after_Parse_witness :
  exists ie,
    Ipexpr.Parse "10.0-3.*.7,9" = Some (inr ie)
    /\ Ipexpr.Matches ie "10.2.200.9"
       = (Bitsvector.Test (compile_octet "10") (IpSpec.decimal_value "10")
          && Bitsvector.Test (compile_octet "0-3") (IpSpec.decimal_value "2")
          && Bitsvector.Test (compile_octet "*") (IpSpec.decimal_value "200")
          && Bitsvector.Test (compile_octet "7,9") (IpSpec.decimal_value "9"),
          None).
Proof.
  eexists. split; [vm_compute; reflexivity|].
  eapply (Matches_after_Parse "10.0-3.*.7,9" "10.2.200.9").
  - vm_compute. reflexivity.
  - reflexivity.
  - reflexivity.
  - reflexivity.
Defined.

(** X19: the all-wildcard pattern compiles, and it matches every
    well-formed address. *)
Theorem wildcard_pattern_matches_all :
  exists ie,
    Ipexpr.Parse "*.*.*.*" = Some (inr ie)
    /\ forall addr : string,
         IpSpec.well_formed addr = true ->
         Ipexpr.Matches ie addr = (true, None).
Proof.
  eexists. split; [vm_compute; reflexivity|].
  intros addr Hwf.
  destruct (IpexprMore.well_formed_values addr Hwf)
    as (a & b & c & d & _ & Hb & E).
  unfold Ipexpr.Matches. rewrite E. rewrite IpexprMore.matches_four.
  change (Ipexpr.octet_at _ 0) with Bitsvector.AllSet.
  change (Ipexpr.octet_at _ 1) with Bitsvector.AllSet.
  change (Ipexpr.octet_at _ 2) with Bitsvector.AllSet.
  change (Ipexpr.octet_at _ 3) with Bitsvector.AllSet.
  apply Forall_cons in Hb as [Ha Hb]. apply Forall_cons in Hb as [Hb' Hb].
  apply Forall_cons in Hb as [Hc Hb]. apply Forall_cons in Hb as [Hd _].
  rewrite !BitsvectorFacts.Test_AllSet by done. reflexivity.
Qed.

(** * The inner loop of the generator *)
Module GenerateMore.

Import Bitsvector Ipexpr ParserSpec.

Lemma step_mod c j : ((c + 1) mod 256 + (j - 1)) mod 256 = (c + j) mod 256.
Proof. rewrite Zplus_mod_idemp_l. f_equal. lia. Qed.

Lemma step_carry c carry k :
  0 <= c <= 255 -> 0 <= k ->
  (if (c + 1) mod 256 =? 0 then true else carry)
  || (256 <=? (c + 1) mod 256 + k)
  = carry || (256 <=? c + (k + 1)).
Proof.
  intros Hc Hk. destruct (Z.eq_dec c 255) as [->|Hne].
  - change ((255 + 1) mod 256) with 0. cbn [Z.eqb orb].
    destruct (Z.leb_spec 256 (255 + (k + 1))); [|lia].
    by rewrite orb_true_r.
  - rewrite (Z.mod_small (c + 1)) by lia.
    destruct (Z.eqb_spec (c + 1) 0); [lia|].
    f_equal. f_equal. lia.
Qed.

Lemma next_member_finds fuel ob : forall c carry j,
  0 <= c <= 255 -> 1 <= j <= Z.of_nat fuel ->
  Test ob ((c + j) mod 256) = true ->
  exists d,
    1 <= d <= j
    /\ next_member fuel ob c carry
       = Some ((c + d) mod 256, carry || (256 <=? c + d))
    /\ Test ob ((c + d) mod 256) = true
    /\ forall i, 1 <= i < d -> Test ob ((c + i) mod 256) = false.
Proof.
  induction fuel as [|fuel IH]; intros c carry j Hc Hj Hm; [lia|].
  cbn [next_member]. unfold byte_of. rewrite Z.mod_mod by lia.
  destruct (Test ob ((c + 1) mod 256)) eqn:E.
  - exists 1. split; [lia|]. split; [|split; [done|intros; lia]].
    f_equal. f_equal.
    pose proof (step_carry c carry 0 Hc ltac:(lia)) as H.
    rewrite Z.add_0_r in H.
    destruct (Z.eq_dec c 255) as [->|Hne].
    + change ((255 + 1) mod 256) with 0. cbn. by rewrite orb_true_r.
    + rewrite (Z.mod_small (c + 1)) by lia.
      destruct (Z.eqb_spec (c + 1) 0); [lia|].
      destruct (Z.leb_spec 256 (c + 1)); [lia|]. by rewrite orb_false_r.
  - assert (j <> 1) as Hj1 by (intros ->; congruence).
    pose proof (Z.mod_pos_bound (c + 1) 256 ltac:(lia)) as Hc1.
    destruct (IH ((c + 1) mod 256)
                (if (c + 1) mod 256 =? 0 then true else carry) (j - 1))
      as (d & Hd & Hn & Ht & Hmin); [lia|lia|by rewrite step_mod|].
    exists (d + 1). split; [lia|].
    rewrite <- (step_mod c (d + 1)). replace (d + 1 - 1) with d by lia.
    split; [|split; [done|]].
    + rewrite Hn. f_equal. f_equal. apply step_carry; lia.
    + intros i Hi. destruct (Z.eq_dec i 1) as [->|Hi1]; [done|].
      rewrite <- step_mod. apply Hmin. lia.
Qed.

Lemma Matches_cases ie s :
  (IpSpec.well_formed s = true /\ exists b, Matches ie s = (b, None))
  \/ (IpSpec.well_formed s = false
      /\ exists e, Matches ie s = (false, Some e)).
Proof.
  pose proof (IpFacts.Parse_spec s) as H. unfold Matches.
  destruct (IpSpec.well_formed s).
  - left. split; [done|].
    destruct (Strings.Split s ".") as [|a [|b [|c [|d [|x r]]]]];
      try (exfalso;
           match type of H with _ /\ _ => destruct H as [H _] end;
           discriminate H).
    rewrite H. eauto.
  - right. split; [done|].
    destruct (Strings.Split s ".") as [|a [|b [|c [|d [|x r]]]]];
      try (destruct H as [_ ->]; eauto; fail).
    destruct H as [e ->]. eauto.
Qed.

End GenerateMore.

(** X20: on an octet set without members the inner loop of the
    generator never finds a value to stop at: it runs out of any fuel. *)
Theorem next_member_diverges_on_empty_set :
  forall ob : list Z,
    (forall v, ParserSpec.byte_range v -> Bitsvector.Test ob v = false) ->
    forall (fuel : nat) (c : Z) (carry : bool),
      Ipexpr.next_member fuel ob c carry = None.
Proof.
  intros ob Hempty fuel. induction fuel as [|fuel IH]; intros c carry;
    [reflexivity|].
  cbn [Ipexpr.next_member]. unfold byte_of. rewrite Z.mod_mod by lia.
  rewrite Hempty; [apply IH|].
  pose proof (Z.mod_pos_bound (c + 1) 256 ltac:(lia)). red. lia.
Qed.

Lemma next_member_diverges_on_empty_set_witness :
  Ipexpr.next_member 1000 (Bitsvector.New [(9, 3)]) 0 false = None.
Proof.
  apply next_member_diverges_on_empty_set. intros v Hv.
  rewrite BitsvectorFacts.Test_New_other;
    try (discriminate || (repeat constructor; cbn; lia) || exact Hv).
  unfold BitsvectorSpec.member, BitsvectorSpec.in_interval. cbn.
  destruct (Z.leb_spec 9 v), (Z.leb_spec v 3); cbn; try reflexivity; lia.
Defined.

(** X21: on an octet set with a member the inner loop of the generator
    stops within 256 steps at the first member after the counter, going
    round from 255 to 0, and reports a carry exactly when it went
    round (or when the carry was already set). *)
Theorem next_member_finds_the_next_member :
  forall (ob : list Z) (c m : Z) (carry : bool),
    0 <= c <= 255 -> ParserSpec.byte_range m ->
    Bitsvector.Test ob m = true ->
    exists d,
      1 <= d <= 256
      /\ Ipexpr.next_member 256 ob c carry
         = Some ((c + d) mod 256, carry || (256 <=? c + d))
      /\ Bitsvector.Test ob ((c + d) mod 256) = true
      /\ forall i, 1 <= i < d -> Bitsvector.Test ob ((c + i) mod 256) = false.
Proof.
  intros ob c m carry Hc Hm Ht.
  pose proof (Z.mod_pos_bound (m - c - 1) 256 ltac:(lia)) as Hj.
  destruct (GenerateMore.next_member_finds 256 ob c carry
              ((m - c - 1) mod 256 + 1)) as (d & Hd & H); [done|lia| |].
  - replace (c + ((m - c - 1) mod 256 + 1))
      with (c + 1 + (m - c - 1) mod 256) by lia.
    rewrite Zplus_mod_idemp_r. replace (c + 1 + (m - c - 1)) with m by lia.
    rewrite Z.mod_small by (red in Hm; lia). done.
  - exists d. split; [lia|done].
Qed.

Lemma next_member_finds_the_next_member_witness :
  exists d,
    1 <= d <= 256
    /\ Ipexpr.next_member 256 (Bitsvector.New [(1, 1); (3, 3)]) 3 false
       = Some ((3 + d) mod 256, false || (256 <=? 3 + d))
    /\ Bitsvector.Test (Bitsvector.New [(1, 1); (3, 3)]) ((3 + d) mod 256)
       = true
    /\ forall i, 1 <= i < d ->
         Bitsvector.Test (Bitsvector.New [(1, 1); (3, 3)]) ((3 + i) mod 256)
         = false.
Proof.
  apply (next_member_finds_the_next_member _ 3 1 false).
  - lia.
  - red; lia.
  - vm_compute. reflexivity.
Defined.

(** * The tokenizer and the parser on literal text *)
Module OnText.

Import Lexer LexerSpec LexerFacts IpSpec.
Local Open Scope list_scope.

Local Arguments at_pos : simpl never.

Local Infix "+++" := String.append (at level 60, right associativity).

Lemma length_app a b :
  String.length (a +++ b) = (String.length a + String.length b)%nat.
Proof. induction a as [|c a IH]; cbn; [reflexivity|by rewrite IH]. Qed.

Lemma app_assoc a b c : (a +++ b) +++ c = a +++ (b +++ c).
Proof. induction a as [|x a IH]; cbn; [reflexivity|by rewrite IH]. Qed.

Lemma app_nil_r a : a +++ EmptyString = a.
Proof. induction a as [|x a IH]; cbn; [reflexivity|by rewrite IH]. Qed.

Lemma get_app_here pre c rest :
  String.get (String.length pre) (pre +++ String c rest) = Some c.
Proof. induction pre as [|x pre IH]; cbn; [reflexivity|exact IH]. Qed.

Lemma substring_app pre ds rest :
  String.substring (String.length pre) (String.length ds) (pre +++ ds +++ rest)
  = ds.
Proof.
  induction pre as [|x pre IH]; cbn; [|exact IH].
  induction ds as [|c ds IHd]; cbn; [by destruct rest|by rewrite IHd].
Qed.

Lemma readChar_at_pos s k : readChar (at_pos s k) = at_pos s (S k).
Proof. unfold readChar, at_pos. cbn. by rewrite Nat.add_1_r. Qed.

Lemma New_at_pos s : New s = at_pos s 0.
Proof. reflexivity. Qed.

Lemma at_pos_Inv s k : Inv (at_pos s k).
Proof.
  split; [reflexivity|]. unfold at_pos. cbn.
  destruct (Nat.leb_spec (String.length s) k); [done|lia].
Qed.

Lemma ch_at_app pre c rest :
  ch (at_pos (pre +++ String c rest) (String.length pre)) = c.
Proof.
  unfold at_pos. cbn. rewrite get_app_here, length_app. cbn.
  destruct (Nat.leb_spec (String.length pre + S (String.length rest))
              (String.length pre)); [lia|reflexivity].
Qed.

Lemma ch_at_end s k : (String.length s <= k)%nat -> ch (at_pos s k) = nul.
Proof.
  intros H. unfold at_pos. cbn. apply Nat.leb_le in H. by rewrite H.
Qed.

Lemma read_while_stop cond fuel l :
  cond (ch l) = false -> read_while cond fuel l = Some l.
Proof. intros H. destruct fuel; cbn; by rewrite H. Qed.

Lemma isDigit_plain c :
  isDigit c = true ->
  Ascii.eqb c " " = false /\ Ascii.eqb c "-" = false
  /\ Ascii.eqb c "*" = false /\ Ascii.eqb c "," = false
  /\ Ascii.eqb c nul = false /\ Ascii.eqb c "+" = false.
Proof.
  intros H. repeat split; apply Ascii.eqb_neq; intros ->; discriminate.
Qed.

(** The digit loop runs over a run of digits and stops behind it. *)
Lemma read_digits ds : forall pre rest fuel,
  all_digits ds = true -> starts_nondigit rest ->
  (String.length ds <= fuel)%nat ->
  read_while isDigit fuel (at_pos (pre +++ ds +++ rest) (String.length pre))
  = Some (at_pos (pre +++ ds +++ rest)
            (String.length pre + String.length ds)).
Proof.
  induction ds as [|c ds IH]; intros pre rest fuel Hd Hr Hf.
  - cbn [String.append String.length]. rewrite Nat.add_0_r.
    apply read_while_stop. destruct rest as [|x rest].
    + rewrite ch_at_end; [done|]. by rewrite length_app, Nat.add_0_r.
    + by rewrite ch_at_app.
  - cbn in Hd. apply andb_true_iff in Hd as [Hc Hd].
    destruct fuel as [|fuel]; [cbn in Hf; lia|].
    cbn [String.append read_while]. rewrite ch_at_app, Hc, readChar_at_pos.
    replace (pre +++ String c (ds +++ rest))
      with ((pre +++ String c EmptyString) +++ ds +++ rest)
      by (by rewrite app_assoc).
    replace (S (String.length pre))
      with (String.length (pre +++ String c EmptyString))
      by (rewrite length_app; cbn; lia).
    rewrite IH; [|done|done|cbn in Hf; lia].
    do 2 f_equal. rewrite length_app. cbn. lia.
Qed.

(** A maximal run of digits is one NUMBER token, with the run as its
    literal. *)
Lemma NextToken_number pre ds rest :
  ds <> EmptyString -> all_digits ds = true -> starts_nondigit rest ->
  NextToken (at_pos (pre +++ ds +++ rest) (String.length pre))
  = Some (Token.New Token.NUMBER ds,
          at_pos (pre +++ ds +++ rest)
            (String.length pre + String.length ds)).
Proof.
  intros Hne Hd Hr. destruct ds as [|c ds]; [done|].
  pose proof Hd as Hd'. cbn in Hd'. apply andb_true_iff in Hd' as [Hc _].
  destruct (isDigit_plain c Hc) as (H1 & H2 & H3 & H4 & H5 & _).
  unfold NextToken, skipWhiteSpaces.
  rewrite read_while_stop
    by (cbn [String.append]; by rewrite ch_at_app).
  cbn [mbind option_bind]. cbv zeta.
  replace (ch (at_pos (pre +++ String c ds +++ rest) (String.length pre)))
    with c by (cbn [String.append]; by rewrite ch_at_app).
  rewrite H2, H3, H4, H5, Hc. unfold readNumber.
  rewrite read_digits; [|done|done|].
  - cbn [mbind option_bind]. do 3 f_equal.
    change (position (at_pos ?s ?k)) with k.
    change (input (at_pos ?s ?k)) with s.
    replace (String.length pre + String.length (String c ds)
             - String.length pre)%nat
      with (String.length (String c ds)) by lia.
    apply substring_app.
  - change (input (at_pos ?s ?k)) with s. rewrite !length_app. lia.
Qed.

Lemma NextToken_dash pre rest :
  NextToken (at_pos (pre +++ String "-" rest) (String.length pre))
  = Some (Token.New Token.DASH "-",
          at_pos (pre +++ String "-" rest) (S (String.length pre))).
Proof.
  unfold NextToken, skipWhiteSpaces.
  rewrite read_while_stop by (by rewrite ch_at_app).
  cbn [mbind option_bind]. cbv zeta. rewrite ch_at_app. cbn.
  by rewrite readChar_at_pos.
Qed.

Lemma NextToken_end s k :
  (String.length s <= k)%nat ->
  NextToken (at_pos s k) = Some (eof, at_pos s (S k)).
Proof.
  intros H.
  destruct (NextToken_at_end (at_pos s k) (at_pos_Inv s k) H) as [-> _].
  by rewrite readChar_at_pos.
Qed.

End OnText.

Module OnTextParser.

Import Parser LexerSpec IpSpec OnText.
Local Open Scope list_scope.

Local Arguments at_pos : simpl never.
Local Arguments Lexer.NextToken : simpl never.
Local Arguments Strconv.Atoi : simpl never.
Local Arguments parseExpr_loop : simpl never.

Lemma Atoi_digits ds :
  ds <> EmptyString -> all_digits ds = true ->
  Strconv.Atoi ds
  = match Strconv.parse_digits Strconv.maxUint64 0 ds with
    | inl e => inl e
    | inr un => if Strconv.maxInt <? un then inl Strconv.ErrRange else inr un
    end.
Proof.
  intros Hne Hd. destruct ds as [|c ds]; [done|].
  cbn in Hd. apply andb_true_iff in Hd as [Hc _].
  destruct (isDigit_plain c Hc) as (_ & H2 & _ & _ & _ & H6).
  unfold Strconv.Atoi. cbv zeta. by rewrite H6, H2.
Qed.

(** [Atoi] and the range check of [parseNumber] on a digit string. *)
Lemma Atoi_byte ds :
  ds <> EmptyString -> all_digits ds = true ->
  match Strconv.Atoi ds with
  | inl _ => 255 < decimal_value ds
  | inr num => num = decimal_value ds /\ 0 <= num
  end.
Proof.
  intros Hne Hd. rewrite Atoi_digits by done.
  assert (255 < Strconv.maxInt < Strconv.maxUint64) as Hmax
    by (unfold Strconv.maxInt, Strconv.maxUint64; lia).
  destruct (Strconv.parse_digits Strconv.maxUint64 0 ds) as [e|num] eqn:E.
  - destruct (Z.le_gt_cases (decimal_value ds) 255) as [Hle|Hgt]; [|lia].
    assert (Strconv.parse_digits Strconv.maxUint64 0 ds
            = inr (decimal_value ds)) as E'.
    { apply IpFacts.parse_digits_inr; [lia|].
      split; [done|]. split; [|done]. unfold decimal_value in Hle. lia. }
    congruence.
  - apply IpFacts.parse_digits_inr in E as (_ & _ & ->); [|lia].
    destruct (Z.ltb_spec Strconv.maxInt (decimal_from 0 ds)) as [Hlt|Hge].
    + unfold decimal_value. lia.
    + split; [done|]. apply (IpFacts.decimal_from_ge ds 0); [lia|done].
Qed.

(** The parser that [New] returns on a digit string. *)
Lemma New_number ds :
  ds <> EmptyString -> all_digits ds = true ->
  Parser.New ds
  = Some {| l := at_pos ds (S (String.length ds)); errors := [];
            currToken := Token.New Token.NUMBER ds; peekToken := eof |}.
Proof.
  intros Hne Hd.
  pose proof (NextToken_number EmptyString ds EmptyString Hne Hd I) as H1.
  cbn [String.append String.length Nat.add] in H1. rewrite app_nil_r in H1.
  pose proof (NextToken_end ds (String.length ds) (Nat.le_refl _)) as H2.
  unfold New, nextToken, bind. change (Lexer.New ds) with (at_pos ds 0).
  cbn. rewrite H1. cbn. rewrite H2. reflexivity.
Qed.

Lemma run_number ds :
  ds <> EmptyString -> all_digits ds = true ->
  Parser.run ds
  = if decimal_value ds <=? 255
    then Some ([(decimal_value ds, decimal_value ds)], true, [])
    else Some ([], false, [not_valid ds; not_valid ds]).
Proof.
  intros Hne Hd. unfold run. rewrite New_number by done.
  cbn [mbind option_bind].
  pose proof (NextToken_end ds (S (String.length ds)) ltac:(lia)) as H3.
  pose proof (Atoi_byte ds Hne Hd) as Ha.
  unfold Parse, parseExpr, bind, get. cbn [l].
  change (Lexer.input (at_pos ds ?k)) with ds.
  rewrite Nat.add_comm. cbn [Nat.add].
  unfold parseExpr_loop; fold parseExpr_loop.
  unfold parseTerm, parseNumber, bind, currTokenIs, peekTokenIs, get, ret,
    nextToken, numberParsingError, push_error.
  cbn. destruct (Strconv.Atoi ds) as [e|num].
  - destruct (Z.leb_spec (decimal_value ds) 255); [lia|]. reflexivity.
  - destruct Ha as [-> H0]. destruct (Z.leb_spec (decimal_value ds) 255).
    + replace ((decimal_value ds <? 0) || (255 <? decimal_value ds))
        with false
        by (symmetry; apply orb_false_iff; split; apply Z.ltb_ge; lia).
      cbn. rewrite H3. cbn.
      unfold parseExpr_loop; fold parseExpr_loop.
      unfold bind, currTokenIs, get, ret. cbn.
      rewrite ParserFacts.byte_of_range by (red; lia). reflexivity.
    + replace ((decimal_value ds <? 0) || (255 <? decimal_value ds))
        with true
        by (symmetry; apply orb_true_iff; right; apply Z.ltb_lt; lia).
      reflexivity.
Qed.

Lemma Atoi_small ds :
  ds <> EmptyString -> all_digits ds = true -> decimal_value ds <= 255 ->
  Strconv.Atoi ds = inr (decimal_value ds)
  /\ (decimal_value ds <? 0) || (255 <? decimal_value ds) = false
  /\ byte_of (decimal_value ds) = decimal_value ds.
Proof.
  intros Hne Hd Hle. pose proof (Atoi_byte ds Hne Hd) as Ha.
  destruct (Strconv.Atoi ds) as [e|num]; [lia|]. destruct Ha as [-> H0].
  split; [done|]. split.
  - apply orb_false_iff; split; apply Z.ltb_ge; lia.
  - apply ParserFacts.byte_of_range. red. lia.
Qed.

Lemma run_range la lb :
  la <> EmptyString -> all_digits la = true -> decimal_value la <= 255 ->
  lb <> EmptyString -> all_digits lb = true -> decimal_value lb <= 255 ->
  Parser.run (String.append la (String "-" lb))
  = Some ([(decimal_value la, decimal_value lb)], true, []).
Proof.
  intros Hna Hda Hla Hnb Hdb Hlb.
  set (s := String.append la (String "-" lb)).
  assert (Hlen : String.length s = (String.length la + S (String.length lb))%nat)
    by (unfold s; by rewrite length_app).
  pose proof (NextToken_number EmptyString la (String "-" lb) Hna Hda eq_refl)
    as T1.
  cbn [String.append String.length Nat.add] in T1. fold s in T1.
  pose proof (NextToken_dash la lb) as T2. fold s in T2.
  pose proof (NextToken_number (String.append la (String "-" EmptyString))
                lb EmptyString Hnb Hdb I) as T3.
  rewrite app_nil_r, app_assoc, length_app in T3.
  cbn [String.append String.length] in T3. fold s in T3.
  rewrite Nat.add_1_r in T3. cbn [Nat.add] in T3.
  pose proof (NextToken_end s (S (String.length la + String.length lb))
                ltac:(lia)) as T4.
  pose proof (NextToken_end s (S (S (String.length la + String.length lb)))
                ltac:(lia)) as T5.
  destruct (Atoi_small la Hna Hda Hla) as (Aa & Ra & Ba).
  destruct (Atoi_small lb Hnb Hdb Hlb) as (Ab & Rb & Bb).
  unfold run, New, nextToken, bind. change (Lexer.New s) with (at_pos s 0).
  cbn. rewrite T1. cbn. rewrite T2. cbn.
  unfold Parse, parseExpr, bind, get. cbn [l].
  change (Lexer.input (at_pos s ?k)) with s.
  rewrite Nat.add_comm. cbn [Nat.add].
  unfold parseExpr_loop; fold parseExpr_loop.
  unfold parseTerm, parseNumber, bind, currTokenIs, peekTokenIs, get, ret,
    nextToken, numberParsingError, push_error.
  cbn. rewrite Aa. cbn. rewrite Ra. cbn. rewrite T3. cbn. rewrite T4. cbn.
  rewrite Ab. cbn. rewrite Rb. cbn. rewrite T5. cbn.
  unfold parseExpr_loop; fold parseExpr_loop.
  unfold bind, currTokenIs, get, ret. cbn.
  rewrite Ba, Bb. reflexivity.
Qed.

End OnTextParser.

(** X23: an octet expression that is one non-empty string of decimal
    digits, leading zeros included, parses to the single interval
    [{n,n}] of its decimal value [n] without diagnostics when [n] is at
    most 255, and otherwise fails with the diagnostic "numeric value ...
    is not valid" recorded twice (by [parseNumber] and again by
    [parseTerm]). *)
Theorem Parse_number_literal :
  forall ds : string,
    ds <> EmptyString -> IpSpec.all_digits ds = true ->
    Parser.run ds
    = if IpSpec.decimal_value ds <=? 255
      then Some ([(IpSpec.decimal_value ds, IpSpec.decimal_value ds)],
                 true, [])
      else Some ([], false, [not_valid ds; not_valid ds]).
Proof. apply OnTextParser.run_number. Qed.

Lemma Parse_number_literal_witness :
  Parser.run "0000000000000000000000000000042"
  = if IpSpec.decimal_value "0000000000000000000000000000042" <=? 255
    then Some ([(IpSpec.decimal_value "0000000000000000000000000000042",
                 IpSpec.decimal_value "0000000000000000000000000000042")],
               true, [])
    else Some ([], false, [not_valid "0000000000000000000000000000042";
                           not_valid "0000000000000000000000000000042"]).
Proof. apply Parse_number_literal; [discriminate|reflexivity]. Defined.

(** X24: an octet expression made of two non-empty digit strings with
    values of at most 255 and a dash between them parses to the single
    interval of the two values, in the order written, without
    diagnostics. *)
Theorem Parse_range_literal :
  forall la lb : string,
    la <> EmptyString -> IpSpec.all_digits la = true ->
    IpSpec.decimal_value la <= 255 ->
    lb <> EmptyString -> IpSpec.all_digits lb = true ->
    IpSpec.decimal_value lb <= 255 ->
    Parser.run (String.append la (String "-" lb))
    = Some ([(IpSpec.decimal_value la, IpSpec.decimal_value lb)], true, []).
Proof. apply OnTextParser.run_range. Qed.

Lemma Parse_range_literal_witness :
  Parser.run (String.append "200" (String "-" "017"))
  = Some ([(IpSpec.decimal_value "200", IpSpec.decimal_value "017")],
          true, []).
Proof.
  apply Parse_range_literal;
    try (discriminate || reflexivity || (vm_compute; discriminate)).
Defined.


